(** * Documentation cog: symbol table builder and page-batched parse cache

    A shallow embedding of [bot/exts/info/doc/_cog.py]: the merge of package
    inventories into [doc_symbols] / [renamed_symbols] ([DocCog.update_single]),
    and the [CachedParser] with its background parse worker, written as the
    atomic segments the coroutines execute between two suspension points. *)

From stdpp Require Import gmap strings list fin_maps.
From Stdlib Require Import ZArith Ascii.

Open Scope string_scope.
Open Scope list_scope.

(** ** Python string operations used by the cog *)

(** [c in s] for a one-character needle. *)
Fixpoint contains_char (c : ascii) (s : string) : bool :=
  match s with
  | EmptyString => false
  | String a s' => if Ascii.eqb a c then true else contains_char c s'
  end.

(** [s.split(sep)] for a one-character separator, as a non-empty list made of
    the piece in progress and the pieces after it. *)
Fixpoint split_aux (sep : ascii) (s : string) : string * list string :=
  match s with
  | EmptyString => (EmptyString, [])
  | String a s' =>
      let '(piece, pieces) := split_aux sep s' in
      if Ascii.eqb a sep then (EmptyString, piece :: pieces)
      else (String a piece, pieces)
  end.

Definition split (sep : ascii) (s : string) : list string :=
  let '(piece, pieces) := split_aux sep s in piece :: pieces.

(** [s.partition(sep)]: the text before the first separator, the separator
    (empty when there is none) and the text after it. *)
Fixpoint partition (sep : ascii) (s : string) : string * string * string :=
  match s with
  | EmptyString => (EmptyString, EmptyString, EmptyString)
  | String a s' =>
      if Ascii.eqb a sep then (EmptyString, String sep EmptyString, s')
      else let '(before, mid, after) := partition sep s' in
           (String a before, mid, after)
  end.

(** The f-string [f"{prefix}.{name}"]. *)
Definition dotted (prefix name : string) : string := prefix +:+ "." +:+ name.

(** ** Module constants *)

Definition FORCE_PREFIX_GROUPS : list string :=
  ["2to3fixer"; "token"; "label"; "pdbcommand"; "term"].

Definition PRIORITY_PACKAGES : list string := ["python"].

Definition in_tuple (x : string) (t : list string) : bool := bool_decide (x ∈ t).

(** ** Data model *)

(** [class DocItem(NamedTuple)]: equality is field-wise. *)
Record DocItem := mkDocItem {
  package : string;
  group : string;
  base_url : string;
  relative_url_path : string;
  symbol_id : string
}.

Definition url (d : DocItem) : string := base_url d +:+ relative_url_path d.

#[global] Instance DocItem_eq_dec : EqDecision DocItem.
Proof. solve_decision. Defined.

Definition DocItem_to_tuple (d : DocItem) : string * string * string * string * string :=
  (package d, group d, base_url d, relative_url_path d, symbol_id d).

Definition DocItem_of_tuple (t : string * string * string * string * string) : DocItem :=
  let '(p, g, b, r, i) := t in mkDocItem p g b r i.

#[global] Instance DocItem_countable : Countable DocItem.
Proof.
  apply (inj_countable' DocItem_to_tuple DocItem_of_tuple).
  by intros [].
Defined.

(** Exceptions the modelled code can raise. *)
Inductive exn :=
  | IndexError          (* [seq[i]] out of range *)
  | ValueError          (* [list.index] of an absent element *)
  | KeyError            (* [del d[k]] of an absent key *)
  | InvalidStateError   (* [Future.set_result] on a finished future *)
  | CancelledError      (* delivered to a cancelled task *)
  | ClientError.        (* the page request failed *)

(** The result of running a piece of code on a mutable state: it returns a
    value, or raises, and in both cases leaves the state as mutated so far. *)
Inductive outcome (S A : Type) :=
  | Normal (v : A) (s : S)
  | Raised (e : exn) (s : S).
Arguments Normal {S A} v s.
Arguments Raised {S A} e s.

Definition final_state {S A} (o : outcome S A) : S :=
  match o with Normal _ s => s | Raised _ s => s end.

Definition returned {S A} (o : outcome S A) : option A :=
  match o with Normal v _ => Some v | Raised _ _ => None end.

Definition raised {S A} (o : outcome S A) : option exn :=
  match o with Normal _ _ => None | Raised e _ => Some e end.

Definition bind {S A B} (o : outcome S A) (k : A → S → outcome S B) : outcome S B :=
  match o with
  | Normal v s => k v s
  | Raised e s => Raised e s
  end.

(** ** The parse cache object and the objects it refers to *)

(** The page content handed to the extractor ([BeautifulSoup]). *)
Definition Soup := string.
Definition Markdown := string.

(** [class QueueItem(NamedTuple)]: a symbol and the soup of its page. Its
    [__eq__] compares the symbol alone when the other side is a [DocItem]. *)
Record QueueItem := mkQueueItem { symbol : DocItem; soup : Soup }.

Definition QueueItem_eq_DocItem (q : QueueItem) (d : DocItem) : bool :=
  bool_decide (symbol q = d).

(** Where the worker coroutine [_parse_queue] is suspended. *)
Inductive worker_pc :=
  | WCreated                                   (* task made, body not entered yet *)
  | WAtCacheSet (item : DocItem) (md : Markdown) (* line 127, [await doc_cache.set] *)
  | WAtSleep                                   (* line 133, [await asyncio.sleep] *)
  | WDone (err : option exn).                  (* finished, normally or with an exception *)

(** An [asyncio.Task] running [_parse_queue]: where it stands and whether
    [cancel()] was called on it and not yet delivered. *)
Record Task := mkTask { pc : worker_pc; must_cancel : bool }.

(** The objects the cache holds references to: the lists of [_page_symbols]
    (a suspended [get_markdown] keeps a reference to one of them), the futures
    ([None] while pending) and the tasks, each addressed by its index. *)
Record Store := mkStore {
  lists : list (list DocItem);
  futures : list (option Markdown);
  tasks : list Task
}.

(** [CachedParser.__init__]: the four attributes. *)
Record CachedParser := mkCachedParser {
  _queue : list QueueItem;
  _page_symbols : gmap string nat;
  _item_futures : gmap DocItem nat;
  _parse_task : option nat
}.

Definition CachedParser_init : CachedParser := mkCachedParser [] ∅ ∅ None.
Definition Store_init : Store := mkStore [] [] [].

(** [self._page_symbols[doc_item.url].append(doc_item)] on a
    [defaultdict(list)]: a missing key gets a fresh empty list first. *)
Definition add_item (doc_item : DocItem) (ps : CachedParser * Store) : CachedParser * Store :=
  let '(p, σ) := ps in
  match _page_symbols p !! url doc_item with
  | Some l =>
      (p, mkStore (alter (λ syms, syms ++ [doc_item]) l (lists σ)) (futures σ) (tasks σ))
  | None =>
      let l := length (lists σ) in
      (mkCachedParser (_queue p) (<[url doc_item := l]> (_page_symbols p))
                      (_item_futures p) (_parse_task p),
       mkStore (lists σ ++ [[doc_item]]) (futures σ) (tasks σ))
  end.

(** The symbols queued under a page, read through the dictionary. *)
Definition page_symbols_of (p : CachedParser) (σ : Store) (u : string) : option (list DocItem) :=
  l ← _page_symbols p !! u; lists σ !! l.

(** ** The cog: [DocCog.__init__] *)

(** A call [inventory_scheduler.schedule_later(delay, task_id, coroutine)]:
    the delay in seconds, the task id, and the inventory URL that the
    scheduled coroutine [fetch_inventory(inventory_url)] fetches. *)
Record scheduled := mkScheduled {
  delay : Z;
  task_id : string;
  coroutine : string
}.

Record DocCog := mkDocCog {
  base_urls : gmap string string;
  doc_symbols : gmap string DocItem;
  item_fetcher : CachedParser;
  renamed_symbols : gset string;
  inventory_scheduler : list scheduled;   (* the calls made, oldest first *)
  scheduled_inventories : gset string
}.

Definition DocCog_init : DocCog := mkDocCog ∅ ∅ CachedParser_init ∅ [] ∅.

(** The state [update_single] works on: the cog and the objects behind its
    parse cache. *)
Definition CogState : Type := DocCog * Store.

(** What [fetch_inventory] yields on success: group identifier to the
    [(symbol, relative_doc_url)] pairs, in the dictionary's order. *)
Definition Inventory : Type := list (string * list (string * string)).

Definition set_doc_symbol (name : string) (d : DocItem) (c : DocCog) : DocCog :=
  mkDocCog (base_urls c) (<[name := d]> (doc_symbols c)) (item_fetcher c)
           (renamed_symbols c) (inventory_scheduler c) (scheduled_inventories c).

Definition add_renamed (name : string) (c : DocCog) : DocCog :=
  mkDocCog (base_urls c) (doc_symbols c) (item_fetcher c)
           ({[name]} ∪ renamed_symbols c) (inventory_scheduler c) (scheduled_inventories c).

Definition fetcher_add_item (d : DocItem) (s : CogState) : CogState :=
  let '(c, σ) := s in
  let '(p, σ') := add_item d (item_fetcher c, σ) in
  (mkDocCog (base_urls c) (doc_symbols c) p (renamed_symbols c)
            (inventory_scheduler c) (scheduled_inventories c), σ').

(** Lines 226-245: the name the new symbol is stored under, and the cog after
    the renaming bookkeeping, when [symbol] may already be taken. *)
Definition resolve_name (api_package_name group_name symbol : string) (c : DocCog)
  : string * DocCog :=
  match doc_symbols c !! symbol with
  | Some original_symbol =>
      if in_tuple group_name FORCE_PREFIX_GROUPS then
        let symbol' := dotted group_name symbol in
        (symbol', add_renamed symbol' c)
      else if in_tuple (group original_symbol) FORCE_PREFIX_GROUPS then
        let overridden_symbol := dotted (group original_symbol) symbol in
        let overridden_symbol :=
          if bool_decide (overridden_symbol ∈ renamed_symbols c)
          then dotted api_package_name overridden_symbol
          else overridden_symbol in
        (symbol, add_renamed overridden_symbol
                   (set_doc_symbol overridden_symbol original_symbol c))
      else if in_tuple api_package_name PRIORITY_PACKAGES then
        (symbol, add_renamed symbol
                   (set_doc_symbol (dotted (package original_symbol) symbol)
                                   original_symbol c))
      else
        let symbol' := dotted api_package_name symbol in
        (symbol', add_renamed symbol' c)
  | None => (symbol, c)
  end.

(** Lines 247-255: the [DocItem] built for a symbol of [api_package_name]. *)
Definition make_symbol_item (api_package_name group_name base_url relative_doc_url : string)
  : DocItem :=
  let '(relative_url_path, _, symbol_id) := partition "#" relative_doc_url in
  mkDocItem api_package_name group_name base_url relative_url_path symbol_id.

(** Lines 222-257: the body of the inner loop for one [(symbol,
    relative_doc_url)] pair of the group [group]. *)
Definition merge_symbol (api_package_name base_url group : string)
    (entry : string * string) (s : CogState) : outcome CogState unit :=
  let '(symbol, relative_doc_url) := entry in
  if contains_char "/" symbol then Normal () s
  else
    match split ":" group !! 1%nat with
    | None => Raised IndexError s
    | Some group_name =>
        let '(c, σ) := s in
        let '(symbol', c1) := resolve_name api_package_name group_name symbol c in
        let symbol_item :=
          make_symbol_item api_package_name group_name base_url relative_doc_url in
        Normal () (fetcher_add_item symbol_item (set_doc_symbol symbol' symbol_item c1, σ))
    end.

(** Line 221: [for symbol, relative_doc_url in items]. *)
Fixpoint merge_items (api_package_name base_url group : string)
    (items : list (string * string)) (s : CogState) : outcome CogState unit :=
  match items with
  | [] => Normal () s
  | entry :: items' =>
      bind (merge_symbol api_package_name base_url group entry s)
           (λ _, merge_items api_package_name base_url group items')
  end.

(** Line 220: [for group, items in package.items()]. *)
Fixpoint merge_package (api_package_name base_url : string)
    (package : Inventory) (s : CogState) : outcome CogState unit :=
  match package with
  | [] => Normal () s
  | (group, items) :: package' =>
      bind (merge_items api_package_name base_url group items s)
           (λ _, merge_package api_package_name base_url package')
  end.

(** [if not package]: [None] and the empty dictionary are both falsy. *)
Definition falsy (package : option Inventory) : bool :=
  match package with
  | None | Some [] => true
  | Some (_ :: _) => false
  end.

(** [DocCog.update_single], given what [fetch_inventory(inventory_url)]
    returned. *)
Definition update_single (api_package_name base_url inventory_url : string)
    (package : option Inventory) (s : CogState) : outcome CogState bool :=
  let '(c, σ) := s in
  let c := mkDocCog (<[api_package_name := base_url]> (base_urls c)) (doc_symbols c)
                    (item_fetcher c) (renamed_symbols c) (inventory_scheduler c)
                    (scheduled_inventories c) in
  if falsy package then
    let delay :=
      (if bool_decide (inventory_url ∉ scheduled_inventories c) then 2 * 60 else 5 * 60)%Z in
    Normal false
      (mkDocCog (base_urls c) (doc_symbols c) (item_fetcher c) (renamed_symbols c)
                (inventory_scheduler c ++ [mkScheduled delay api_package_name inventory_url])
                ({[api_package_name]} ∪ scheduled_inventories c), σ)
  else
    let c := mkDocCog (base_urls c) (doc_symbols c) (item_fetcher c) (renamed_symbols c)
                      (inventory_scheduler c)
                      (scheduled_inventories c ∖ {[api_package_name]}) in
    bind (merge_package api_package_name base_url (default [] package) (c, σ))
         (λ _ s', Normal true s').

(** ** [CachedParser]: the queue *)

(** [self._queue.index(item)] for a [DocItem]: the first position whose
    [QueueItem] equals it, [None] where Python raises [ValueError]. *)
Fixpoint index (item : DocItem) (q : list QueueItem) : option nat :=
  match q with
  | [] => None
  | qi :: q' => if QueueItem_eq_DocItem qi item then Some 0%nat else S <$> index item q'
  end.

(** [CachedParser._move_to_front]: [index], [pop(item_index)], [append]. The
    worker takes its next item with [self._queue.pop()], from the end. *)
Definition _move_to_front (item : DocItem) (q : list QueueItem)
  : outcome (list QueueItem) unit :=
  match index item q with
  | None => Raised ValueError q
  | Some item_index =>
      match q !! item_index with
      | None => Raised IndexError q
      | Some queue_item => Normal () (delete item_index q ++ [queue_item])
      end
  end.

(** [self._queue.pop()]: the last element and the rest, on a non-empty list. *)
Definition pop (q : list QueueItem) : option (QueueItem * list QueueItem) :=
  match reverse q with
  | [] => None
  | qi :: rest => Some (qi, reverse rest)
  end.

(** ** [CachedParser.clear] *)

Definition future_done (σ : Store) (f : nat) : bool :=
  match futures σ !! f with
  | Some (Some _) => true
  | _ => false
  end.

(** [Task.cancel()]: nothing on a finished task, otherwise the request is
    recorded for the task's next step. *)
Definition cancel_task (t : Task) : Task :=
  match pc t with
  | WDone _ => t
  | _ => mkTask (pc t) true
  end.

Definition cancel (t : nat) (σ : Store) : Store :=
  mkStore (lists σ) (futures σ) (alter cancel_task t (tasks σ)).

(** Lines 159-163, which run without suspending. The attribute
    [_parse_task] is not assigned here. *)
Definition clear_sync (ps : CachedParser * Store) : CachedParser * Store :=
  let '(p, σ) := ps in
  let σ' := match _parse_task p with
            | Some t => cancel t σ
            | None => σ
            end in
  (mkCachedParser [] ∅ ∅ (_parse_task p), σ').

(** Lines 157-158 suspend on the first future that is still pending and do
    not touch the state; [clear] runs through when none is pending and is
    [None] when it would suspend. *)
Definition clear (ps : CachedParser * Store) : option (CachedParser * Store) :=
  if bool_decide (map_Forall (λ _ f, future_done (snd ps) f = true) (_item_futures (fst ps)))
  then Some (clear_sync ps)
  else None.

(** ** The coroutines, one atomic segment at a time *)

(** Where a [get_markdown] call stands. *)
Inductive call_pc :=
  | GAtPage (doc_item : DocItem) (symbols_to_queue : nat)  (* lines 100-101, page requested *)
  | GAtFuture (doc_item : DocItem) (future : nat)          (* line 113, awaiting the future *)
  | GReturned (markdown : Markdown)
  | GRaised (e : exn).

(** The parse cache at run time: the object, the objects it refers to, the
    [get_markdown] calls made so far, and the traffic to the collaborators
    (page requests sent, extractor invocations), oldest first. *)
Record Runtime := mkRuntime {
  parser : CachedParser;
  store : Store;
  calls : list call_pc;
  page_requests : list string;
  extractions : list DocItem
}.

Definition Runtime_init : Runtime := mkRuntime CachedParser_init Store_init [] [] [].

Definition set_queue (q : list QueueItem) (p : CachedParser) : CachedParser :=
  mkCachedParser q (_page_symbols p) (_item_futures p) (_parse_task p).

Definition set_parse_task (t : option nat) (p : CachedParser) : CachedParser :=
  mkCachedParser (_queue p) (_page_symbols p) (_item_futures p) t.

Definition set_task (t : nat) (k : Task) (σ : Store) : Store :=
  mkStore (lists σ) (futures σ) (<[t := k]> (tasks σ)).

(** Lines 110-113: reprioritise, make the future if there is none, await it. *)
Definition get_markdown_tail (doc_item : DocItem) (ps : CachedParser * Store)
  : call_pc * (CachedParser * Store) :=
  let '(p, σ) := ps in
  match _move_to_front doc_item (_queue p) with
  | Raised e _ => (GRaised e, (p, σ))
  | Normal _ q =>
      let p := set_queue q p in
      let '(f, p, σ) :=
        match _item_futures p !! doc_item with
        | Some f => (f, p, σ)
        | None =>
            let f := length (futures σ) in
            (f, mkCachedParser (_queue p) (_page_symbols p)
                               (<[doc_item := f]> (_item_futures p)) (_parse_task p),
             mkStore (lists σ) (futures σ ++ [None]) (tasks σ))
        end in
      match futures σ !! f with
      | Some (Some markdown) => (GReturned markdown, (p, σ))
      | _ => (GAtFuture doc_item f, (p, σ))
      end
  end.

(** Lines 103-108, once the page request has answered with [soup]. *)
Definition get_markdown_queue_page (doc_item : DocItem) (symbols_to_queue : nat)
    (soup : Soup) (ps : CachedParser * Store) : outcome (CachedParser * Store) unit :=
  let '(p, σ) := ps in
  let p := set_queue (_queue p ++ ((λ symbol, mkQueueItem symbol soup)
                                     <$> default [] (lists σ !! symbols_to_queue))) p in
  match _page_symbols p !! url doc_item with
  | None => Raised KeyError (p, σ)
  | Some _ =>
      let p := mkCachedParser (_queue p) (delete (url doc_item) (_page_symbols p))
                              (_item_futures p) (_parse_task p) in
      match _parse_task p with
      | None =>
          let t := length (tasks σ) in
          Normal () (set_parse_task (Some t) p,
                     mkStore (lists σ) (futures σ) (tasks σ ++ [mkTask WCreated false]))
      | Some _ => Normal () (p, σ)
      end
  end.

(** A new call [get_markdown(doc_item)], up to its first suspension. *)
Definition get_markdown_call (doc_item : DocItem) (r : Runtime) : Runtime :=
  match _page_symbols (parser r) !! url doc_item with
  | Some symbols_to_queue =>
      mkRuntime (parser r) (store r) (calls r ++ [GAtPage doc_item symbols_to_queue])
                (page_requests r ++ [url doc_item]) (extractions r)
  | None =>
      let '(c, (p, σ)) := get_markdown_tail doc_item (parser r, store r) in
      mkRuntime p σ (calls r ++ [c]) (page_requests r) (extractions r)
  end.

(** The page request of call [i] answers ([None]: the request raised). *)
Definition get_markdown_page (i : nat) (response : option Soup) (r : Runtime)
  : option Runtime :=
  match calls r !! i with
  | Some (GAtPage doc_item symbols_to_queue) =>
      match response with
      | None =>
          Some (mkRuntime (parser r) (store r) (<[i := GRaised ClientError]> (calls r))
                          (page_requests r) (extractions r))
      | Some soup =>
          match get_markdown_queue_page doc_item symbols_to_queue soup (parser r, store r) with
          | Raised e (p, σ) =>
              Some (mkRuntime p σ (<[i := GRaised e]> (calls r))
                              (page_requests r) (extractions r))
          | Normal _ ps =>
              let '(c, (p, σ)) := get_markdown_tail doc_item ps in
              Some (mkRuntime p σ (<[i := c]> (calls r)) (page_requests r) (extractions r))
          end
      end
  | _ => None
  end.

(** Call [i] resumes once the future it awaits has a result. *)
Definition get_markdown_wake (i : nat) (r : Runtime) : option Runtime :=
  match calls r !! i with
  | Some (GAtFuture _ f) =>
      match futures (store r) !! f with
      | Some (Some markdown) =>
          Some (mkRuntime (parser r) (store r) (<[i := GReturned markdown]> (calls r))
                          (page_requests r) (extractions r))
      | _ => None
      end
  | _ => None
  end.

Section Worker.

(** The extractor [get_symbol_markdown(soup, item)] of [_parsing]; [None]
    where it raises. *)
Variable get_symbol_markdown : Soup → DocItem → option Markdown.

(** The [finally] clause of [_parse_queue], then the end of the coroutine. *)
Definition _parse_queue_finally (t : nat) (err : option exn) (r : Runtime) : Runtime :=
  mkRuntime (set_parse_task None (parser r))
            (set_task t (mkTask (WDone err) false) (store r))
            (calls r) (page_requests r) (extractions r).

(** Lines 123-127: the loop test, [pop], the extractor, up to the next await. *)
Definition _parse_queue_loop (t : nat) (r : Runtime) : Runtime :=
  match pop (_queue (parser r)) with
  | None => _parse_queue_finally t None r
  | Some (qi, q) =>
      let next :=
        match get_symbol_markdown (soup qi) (symbol qi) with
        | Some markdown => WAtCacheSet (symbol qi) markdown
        | None => WAtSleep
        end in
      mkRuntime (set_queue q (parser r)) (set_task t (mkTask next false) (store r))
                (calls r) (page_requests r) (extractions r ++ [symbol qi])
  end.

(** Lines 131-132, after [doc_cache.set] returned: [future.set_result]. *)
Definition _parse_queue_set_result (t : nat) (item : DocItem) (markdown : Markdown)
    (r : Runtime) : Runtime :=
  let asleep := set_task t (mkTask WAtSleep false) (store r) in
  match _item_futures (parser r) !! item with
  | None => mkRuntime (parser r) asleep (calls r) (page_requests r) (extractions r)
  | Some f =>
      match futures (store r) !! f with
      | Some None =>
          mkRuntime (parser r)
                    (mkStore (lists asleep) (<[f := Some markdown]> (futures asleep))
                             (tasks asleep))
                    (calls r) (page_requests r) (extractions r)
      | _ => _parse_queue_finally t (Some InvalidStateError) r
      end
  end.

(** The event loop runs task [t] until it suspends again or ends;
    [cache_ok] tells whether a pending [doc_cache.set] returned or raised. A
    task cancelled before its first step ends without entering its body. *)
Definition _parse_queue_step (t : nat) (cache_ok : bool) (r : Runtime) : option Runtime :=
  match tasks (store r) !! t with
  | Some (mkTask WCreated false) => Some (_parse_queue_loop t r)
  | Some (mkTask WCreated true) =>
      Some (mkRuntime (parser r)
                      (set_task t (mkTask (WDone (Some CancelledError)) false) (store r))
                      (calls r) (page_requests r) (extractions r))
  | Some (mkTask (WAtCacheSet item markdown) false) =>
      if cache_ok then Some (_parse_queue_set_result t item markdown r)
      else Some (mkRuntime (parser r) (set_task t (mkTask WAtSleep false) (store r))
                           (calls r) (page_requests r) (extractions r))
  | Some (mkTask WAtSleep false) => Some (_parse_queue_loop t r)
  | Some (mkTask (WAtCacheSet _ _) true) | Some (mkTask WAtSleep true) =>
      Some (_parse_queue_finally t (Some CancelledError) r)
  | Some (mkTask (WDone _) _) | None => None
  end.

(** What can happen next to the cache. *)
Inductive event :=
  | EAddItem (doc_item : DocItem)               (* [add_item(doc_item)] *)
  | ECall (doc_item : DocItem)                  (* a new [get_markdown(doc_item)] *)
  | EPage (call : nat) (response : option Soup) (* a page request answers *)
  | EWake (call : nat)                          (* an awaited future has its result *)
  | EWorker (t : nat) (cache_ok : bool)         (* the worker task runs one segment *)
  | EClear.                                     (* [clear()], no future pending *)

(** One event; [None] when it cannot happen in this state. *)
Definition step (e : event) (r : Runtime) : option Runtime :=
  match e with
  | EAddItem doc_item =>
      let '(p, σ) := add_item doc_item (parser r, store r) in
      Some (mkRuntime p σ (calls r) (page_requests r) (extractions r))
  | ECall doc_item => Some (get_markdown_call doc_item r)
  | EPage i response => get_markdown_page i response r
  | EWake i => get_markdown_wake i r
  | EWorker t cache_ok => _parse_queue_step t cache_ok r
  | EClear =>
      '(p, σ) ← clear (parser r, store r);
      Some (mkRuntime p σ (calls r) (page_requests r) (extractions r))
  end.

Fixpoint run (es : list event) (r : Runtime) : option Runtime :=
  match es with
  | [] => Some r
  | e :: es' => r' ← step e r; run es' r'
  end.

(** A worker is running when the task behind [_parse_task] has not ended. *)
Definition worker_running (r : Runtime) : bool :=
  match _parse_task (parser r) with
  | None => false
  | Some t =>
      match tasks (store r) !! t with
      | Some (mkTask (WDone _) _) | None => false
      | Some _ => true
      end
  end.

End Worker.

(** An extractor that always succeeds, for running the cache on examples. *)
Definition extract_anchor (soup : Soup) (item : DocItem) : option Markdown :=
  Some (soup +:+ "#" +:+ symbol_id item).

(** ** Inputs of the examples *)

Definition otherlib_inventory : Inventory :=
  [("py:function", [("open", "api.html#open")])].

Definition python_inventory : Inventory :=
  [("py:function", [("open", "library/functions.html#open")])].

Definition otherlib_open : DocItem :=
  mkDocItem "otherlib" "function" "https://otherlib.example/" "api.html" "open".

Definition python_open : DocItem :=
  mkDocItem "python" "function" "https://docs.python.org/3/" "library/functions.html" "open".

(** The cog after the inventory of ["otherlib"] was merged into a fresh one. *)
Definition after_otherlib : CogState :=
  final_state (update_single "otherlib" "https://otherlib.example/"
                 "https://otherlib.example/objects.inv" (Some otherlib_inventory)
                 (DocCog_init, Store_init)).

(** The merge of the priority package ["python"] into that cog. *)
Definition python_over_otherlib : outcome CogState bool :=
  update_single "python" "https://docs.python.org/3/"
    "https://docs.python.org/3/objects.inv" (Some python_inventory) after_otherlib.

(** An inventory whose first group identifier has no colon, and the same
    inventory with that entry left out. *)
Definition malformed_inventory : Inventory :=
  [("label", [("intro", "intro.html#intro")]);
   ("py:function", [("open", "functions.html#open")])].

Definition malformed_entry_removed : Inventory :=
  [("label", []);
   ("py:function", [("open", "functions.html#open")])].

(** The spec's example for Rule A: ["bind"] of kind ["func"] from ["libB"],
    then labels named ["bind"] from ["libA"] and from ["libC"]. *)
Definition libB_bind : DocItem :=
  mkDocItem "libB" "func" "https://libb.example/" "api.html" "bind".

Definition after_libB : CogState :=
  final_state (update_single "libB" "https://libb.example/"
                 "https://libb.example/objects.inv"
                 (Some [("py:func", [("bind", "api.html#bind")])])
                 (DocCog_init, Store_init)).



(** A glossary term ["codec"] of ["docs1"] under the bare name, and the same
    term of ["docs2"] renamed to ["term.codec"]. *)
Definition docs1_codec : DocItem :=
  mkDocItem "docs1" "term" "https://docs1.example/" "glossary.html" "term-codec".


(** Two symbols of one page, and the events of the examples on the cache. *)
Definition sym_A : DocItem :=
  mkDocItem "lib" "function" "https://lib.example/" "api.html" "A".

Definition sym_B : DocItem :=
  mkDocItem "lib" "function" "https://lib.example/" "api.html" "B".

(** [A] and [B] are registered; [get_markdown(A)] and [get_markdown(B)] are
    both called before either page request answers. *)
Definition two_symbols_race : list event :=
  [EAddItem sym_A; EAddItem sym_B; ECall sym_A; ECall sym_B;
   EPage 0 (Some "page"); EPage 1 (Some "page")].

(** Two calls [get_markdown(A)] before either page request answers, then the
    worker until it ends. *)
Definition same_symbol_race : list event :=
  [EAddItem sym_A; ECall sym_A; ECall sym_A;
   EPage 0 (Some "page"); EPage 1 (Some "page");
   EWorker 0 true; EWorker 0 true; EWorker 0 true; EWorker 0 true].

(** [A] is requested and parsed, and the worker ends on the empty queue. *)
Definition parse_A : list event :=
  [EAddItem sym_A; ECall sym_A; EPage 0 (Some "page");
   EWorker 0 true; EWorker 0 true; EWake 0; EWorker 0 true].

(** After [parse_A], the symbol is registered again (its package is merged
    again without a refresh) and requested again: the call returns at once
    from the finished future and leaves a worker that has not started;
    [clear()] runs, and only then does the event loop reach the worker. Then
    [B] is registered and requested. *)
Definition cancel_before_start : list event :=
  parse_A ++
  [EAddItem sym_A; ECall sym_A; EPage 1 (Some "page"); EClear; EWorker 1 true;
   EAddItem sym_B; ECall sym_B; EPage 2 (Some "page")].

(** The cache once [parse_A] has run. *)
Definition parsed_A : Runtime :=
  default Runtime_init (run extract_anchor parse_A Runtime_init).

(** ** Looking a symbol up: [DocCog.get_symbol_embed] *)


(** Line 318: the URL of the embed, [f"{symbol_info.url}#{symbol_info.symbol_id}"]. *)
Definition embed_url (symbol_info : DocItem) : string :=
  url symbol_info +:+ "#" +:+ symbol_id symbol_info.


(** ** Relations between two states of the cog *)

(** No name leaves [doc_symbols] or [renamed_symbols]. *)
Definition table_grows (s s' : CogState) : Prop :=
  (∀ name, is_Some (doc_symbols s.1 !! name) → is_Some (doc_symbols s'.1 !! name)) ∧
  renamed_symbols s.1 ⊆ renamed_symbols s'.1.

(** Every location of the table in [s'] is one of the package [pkg] or was
    in the table in [s] already. *)
Definition locations_from (pkg : string) (s s' : CogState) : Prop :=
  ∀ name d, doc_symbols s'.1 !! name = Some d →
            package d = pkg ∨ ∃ name', doc_symbols s.1 !! name' = Some d.

(** The attributes the merge loop does not write. *)
Definition same_bookkeeping (s s' : CogState) : Prop :=
  base_urls s'.1 = base_urls s.1 ∧
  scheduled_inventories s'.1 = scheduled_inventories s.1 ∧
  inventory_scheduler s'.1 = inventory_scheduler s.1.

(** The entries of [_page_symbols] point into the store. *)
Definition pages_in_store (p : CachedParser) (σ : Store) : Prop :=
  ∀ u l, _page_symbols p !! u = Some l → l < length (lists σ).

(** Every location of the table is waiting in [_page_symbols] under its
    page. *)
Definition all_pending (s : CogState) : Prop :=
  pages_in_store (item_fetcher s.1) s.2 ∧
  ∀ name d, doc_symbols s.1 !! name = Some d →
            ∃ syms, page_symbols_of (item_fetcher s.1) s.2 (url d) = Some syms ∧ d ∈ syms.

(** The glossary term ["codec"] of ["docs1"] alone. *)
Definition after_docs1 : CogState :=
  final_state (update_single "docs1" "https://docs1.example/"
                 "https://docs1.example/objects.inv"
                 (Some [("std:term", [("codec", "glossary.html#term-codec")])])
                 (DocCog_init, Store_init)).

(** Two pages never share a list of [_page_symbols]. *)
Definition pages_distinct (p : CachedParser) : Prop :=
  ∀ u u' l, _page_symbols p !! u = Some l → _page_symbols p !! u' = Some l → u = u'.

(** [A] is registered and requested, and its page has arrived. *)
Definition requested_A : Runtime :=
  default Runtime_init
    (run extract_anchor [EAddItem sym_A; ECall sym_A; EPage 0 (Some "page")] Runtime_init).

(** After that, the worker has resolved the future of [A] and sleeps. *)
Definition resolved_A : Runtime :=
  default Runtime_init
    (run extract_anchor [EWorker 0 true; EWorker 0 true] requested_A).

(** [update_single] called once per entry, one call after the other, each
    with what its fetch returned. *)
Definition update_singles
    (updates : list (string * string * string * option Inventory)) (s : CogState)
  : CogState :=
  foldl (λ s '(pkg, base, inv_url, fetched),
           final_state (update_single pkg base inv_url fetched s)) s updates.

(** The steps the worker task [t] takes to work off the queue [q] when every
    [doc_cache.set] returns: per item, from the end of the queue, one segment
    up to the extractor and, if it succeeded, one more to [set_result]; then
    the segment that finds the queue empty. *)
Definition drain_events (get_symbol_markdown : Soup → DocItem → option Markdown)
    (t : nat) (q : list QueueItem) : list event :=
  (reverse q ≫= λ qi,
     match get_symbol_markdown (soup qi) (symbol qi) with
     | Some _ => [EWorker t true; EWorker t true]
     | None => [EWorker t true]
     end) ++ [EWorker t true].

(** Distinct items have distinct futures. *)
Definition futures_distinct (p : CachedParser) : Prop :=
  ∀ d d' f, _item_futures p !! d = Some f → _item_futures p !! d' = Some f → d = d'.

(** The cache after [add_item(A)], [add_item(B)], [get_markdown(A)] and the
    arrival of the page, written out: [B] and [A] queued with [A] last, the
    future of [A] pending, the worker created and not started. *)
Definition queued_BA : Runtime :=
  mkRuntime
    (mkCachedParser [mkQueueItem sym_B "page"; mkQueueItem sym_A "page"] ∅
                    {[sym_A := 0%nat]} (Some 0%nat))
    (mkStore [[sym_A; sym_B]] [None] [mkTask WCreated false])
    [GAtFuture sym_A 0] [url sym_A] [].

(** The cog after the inventory of ["python"] was merged into a fresh one. *)
Definition after_python : CogState :=
  final_state (update_single "python" "https://docs.python.org/3/"
                 "https://docs.python.org/3/objects.inv" (Some python_inventory)
                 (DocCog_init, Store_init)).

(** A task that has not ended. *)
Definition task_live (k : Task) : bool :=
  match pc k with
  | WDone _ => false
  | _ => true
  end.

(** Every worker task that has not ended is the one [_parse_task] refers
    to. *)
Definition single_worker (r : Runtime) : Prop :=
  ∀ t k, tasks (store r) !! t = Some k → task_live k = true →
         _parse_task (parser r) = Some t.

(** A cache with nothing pending, queued or awaited and a worker in the
    middle of an item: [get_markdown(B)] found the page of [A] pending, queued
    [A], started the worker and raised on [B], which is not on the list of
    that page; the worker then took [A] and awaits [doc_cache.set]. *)
Definition live_worker_empty_cache : Runtime :=
  default Runtime_init
    (run extract_anchor
         [EAddItem sym_A; ECall sym_B; EPage 0 (Some "page"); EWorker 0 true] Runtime_init).

(** * Properties *)

(** Closed statements about the examples are settled by evaluation. *)
Ltac evaluate := vm_compute; reflexivity.

(** ** Strings *)

Lemma append_length (s1 s2 : string) :
  String.length (s1 +:+ s2) = (String.length s1 + String.length s2)%nat.
Proof. induction s1 as [|a s1 IH]; simpl; [done | by rewrite IH]. Qed.

(** A dotted name is longer than the name it qualifies, hence another key. *)
Lemma dotted_ne (prefix name : string) : dotted prefix name ≠ name.
Proof.
  intros H. apply (f_equal String.length) in H.
  unfold dotted in H. rewrite !append_length in H. simpl in H. lia.
Qed.



Lemma split_aux_no_sep (sep : ascii) (s : string) :
  contains_char sep s = false → split_aux sep s = (s, []).
Proof.
  induction s as [|a s IH]; simpl; [done |].
  destruct (Ascii.eqb a sep); [done |].
  intros H. by rewrite (IH H).
Qed.

(** Without the separator, [split] returns the string alone, so that index 1
    is out of range. *)
Lemma split_no_sep (sep : ascii) (s : string) :
  contains_char sep s = false → split sep s = [s].
Proof. intros H. unfold split. by rewrite split_aux_no_sep. Qed.

Lemma in_tuple_true (x : string) (t : list string) : in_tuple x t = true ↔ x ∈ t.
Proof. unfold in_tuple. apply bool_decide_eq_true. Qed.

Lemma in_tuple_false (x : string) (t : list string) : in_tuple x t = false ↔ x ∉ t.
Proof. unfold in_tuple. apply bool_decide_eq_false. Qed.

(** ** The symbol table builder *)

Lemma fetcher_add_item_cog (d : DocItem) (c : DocCog) (σ : Store) :
  doc_symbols (fetcher_add_item d (c, σ)).1 = doc_symbols c ∧
  renamed_symbols (fetcher_add_item d (c, σ)).1 = renamed_symbols c ∧
  base_urls (fetcher_add_item d (c, σ)).1 = base_urls c ∧
  scheduled_inventories (fetcher_add_item d (c, σ)).1 = scheduled_inventories c ∧
  inventory_scheduler (fetcher_add_item d (c, σ)).1 = inventory_scheduler c.
Proof.
  unfold fetcher_add_item, add_item.
  by destruct (_page_symbols (item_fetcher c) !! url d).
Qed.

(** A symbol without a slash in a well-formed group is merged: the outcome in
    terms of [resolve_name]. *)
Lemma merge_symbol_resolved (pkg base grp kind sym rel : string) (c : DocCog) (σ : Store) :
  contains_char "/" sym = false →
  split ":" grp !! 1%nat = Some kind →
  ∃ s', merge_symbol pkg base grp (sym, rel) (c, σ) = Normal () s' ∧
        doc_symbols s'.1 =
          <[(resolve_name pkg kind sym c).1 := make_symbol_item pkg kind base rel]>
            (doc_symbols (resolve_name pkg kind sym c).2) ∧
        renamed_symbols s'.1 = renamed_symbols (resolve_name pkg kind sym c).2.
Proof.
  intros Hslash Hkind. unfold merge_symbol. rewrite Hslash, Hkind.
  destruct (resolve_name pkg kind sym c) as [name c1] eqn:Hres.
  eexists. split; [reflexivity |].
  pose proof (fetcher_add_item_cog (make_symbol_item pkg kind base rel)
                (set_doc_symbol name (make_symbol_item pkg kind base rel) c1) σ)
    as (Hd & Hr & _).
  by rewrite Hd, Hr.
Qed.

Section Rules.

Variables (pkg kind sym : string) (inc : DocItem) (c : DocCog).
Hypothesis incumbent : doc_symbols c !! sym = Some inc.

(** The four branches of lines 226-245, one lemma each. *)
Lemma resolve_name_rule_A :
  kind ∈ FORCE_PREFIX_GROUPS →
  resolve_name pkg kind sym c = (dotted kind sym, add_renamed (dotted kind sym) c).
Proof.
  intros HA. unfold resolve_name. rewrite incumbent.
  by rewrite (proj2 (in_tuple_true _ _) HA).
Qed.

Lemma resolve_name_rule_B :
  kind ∉ FORCE_PREFIX_GROUPS → group inc ∈ FORCE_PREFIX_GROUPS →
  let candidate := dotted (group inc) sym in
  let overridden := if bool_decide (candidate ∈ renamed_symbols c)
                    then dotted pkg candidate else candidate in
  resolve_name pkg kind sym c =
    (sym, add_renamed overridden (set_doc_symbol overridden inc c)).
Proof.
  intros HA HB. unfold resolve_name. rewrite incumbent.
  rewrite (proj2 (in_tuple_false _ _) HA).
  by rewrite (proj2 (in_tuple_true _ _) HB).
Qed.

Lemma resolve_name_rule_C :
  kind ∉ FORCE_PREFIX_GROUPS → group inc ∉ FORCE_PREFIX_GROUPS →
  pkg ∈ PRIORITY_PACKAGES →
  resolve_name pkg kind sym c =
    (sym, add_renamed sym (set_doc_symbol (dotted (package inc) sym) inc c)).
Proof.
  intros HA HB HC. unfold resolve_name. rewrite incumbent.
  rewrite (proj2 (in_tuple_false _ _) HA).
  rewrite (proj2 (in_tuple_false _ _) HB).
  by rewrite (proj2 (in_tuple_true _ _) HC).
Qed.

Lemma resolve_name_rule_D :
  kind ∉ FORCE_PREFIX_GROUPS → group inc ∉ FORCE_PREFIX_GROUPS →
  pkg ∉ PRIORITY_PACKAGES →
  resolve_name pkg kind sym c = (dotted pkg sym, add_renamed (dotted pkg sym) c).
Proof.
  intros HA HB HC. unfold resolve_name. rewrite incumbent.
  rewrite (proj2 (in_tuple_false _ _) HA).
  rewrite (proj2 (in_tuple_false _ _) HB).
  by rewrite (proj2 (in_tuple_false _ _) HC).
Qed.

End Rules.

(** Rule C in general: the new entry takes the bare name, the incumbent moves
    to [<incumbent.package>.<symbol>], and the only name added to
    [renamed_symbols] is the bare one. *)
Lemma merge_symbol_rule_C (pkg base grp kind sym rel : string) (inc : DocItem)
    (c : DocCog) (σ : Store) :
  contains_char "/" sym = false →
  split ":" grp !! 1%nat = Some kind →
  doc_symbols c !! sym = Some inc →
  kind ∉ FORCE_PREFIX_GROUPS → group inc ∉ FORCE_PREFIX_GROUPS →
  pkg ∈ PRIORITY_PACKAGES →
  ∃ s', merge_symbol pkg base grp (sym, rel) (c, σ) = Normal () s' ∧
        doc_symbols s'.1 !! sym = Some (make_symbol_item pkg kind base rel) ∧
        doc_symbols s'.1 !! dotted (package inc) sym = Some inc ∧
        renamed_symbols s'.1 = {[sym]} ∪ renamed_symbols c.
Proof.
  intros Hslash Hkind Hinc HA HB HC.
  destruct (merge_symbol_resolved pkg base grp kind sym rel c σ Hslash Hkind)
    as (s' & Hrun & Hdoc & Hren).
  rewrite (resolve_name_rule_C pkg kind sym inc c Hinc HA HB HC) in Hdoc, Hren.
  exists s'. split; [done |]. rewrite Hdoc, Hren. simpl.
  split; [apply lookup_insert_eq |].
  split; [| done].
  rewrite lookup_insert_ne by (intros H; symmetry in H; by apply dotted_ne in H).
  apply lookup_insert_eq.
Qed.

(** ** Inventory-fetch failures *)

(** What the failure branch of [update_single] does, in general: the delay
    depends on whether the inventory URL is in [scheduled_inventories], and
    what is added to that set is the package name. *)
Lemma update_single_failure (pkg base inv_url : string) (package : option Inventory)
    (c : DocCog) (σ : Store) :
  falsy package = true →
  ∃ c', update_single pkg base inv_url package (c, σ) = Normal false (c', σ) ∧
        inventory_scheduler c' =
          inventory_scheduler c ++
            [mkScheduled (if bool_decide (inv_url ∈ scheduled_inventories c)
                          then 300 else 120)%Z pkg inv_url] ∧
        scheduled_inventories c' = {[pkg]} ∪ scheduled_inventories c.
Proof.
  intros Hf. unfold update_single. rewrite Hf. simpl.
  eexists. split; [reflexivity |]. simpl. split; [| done].
  do 2 f_equal. repeat case_bool_decide; done.
Qed.

(** Two failures in a row of a package whose inventory URL is not a package
    name in the set: the second retry is scheduled like the first. *)
Lemma update_single_failure_twice (pkg base inv_url : string) (c : DocCog) (σ : Store) :
  inv_url ∉ scheduled_inventories c → inv_url ≠ pkg →
  ∃ c1 c2,
    update_single pkg base inv_url None (c, σ) = Normal false (c1, σ) ∧
    update_single pkg base inv_url None (c1, σ) = Normal false (c2, σ) ∧
    pkg ∈ scheduled_inventories c1 ∧
    inventory_scheduler c2 =
      inventory_scheduler c ++
        [mkScheduled 120 pkg inv_url; mkScheduled 120 pkg inv_url].
Proof.
  intros Hnot Hne.
  destruct (update_single_failure pkg base inv_url None c σ eq_refl)
    as (c1 & H1 & Hs1 & Hset1).
  destruct (update_single_failure pkg base inv_url None c1 σ eq_refl)
    as (c2 & H2 & Hs2 & Hset2).
  exists c1, c2. split; [done |]. split; [done |].
  split; [rewrite Hset1; apply elem_of_union_l; by apply elem_of_singleton |].
  rewrite Hs2, Hs1, <- app_assoc. simpl.
  rewrite (bool_decide_eq_false_2 _ Hnot).
  rewrite bool_decide_eq_false_2; [done |].
  rewrite Hset1, not_elem_of_union, not_elem_of_singleton. done.
Qed.

(** ** Claims on the symbol table builder *)

(** C1 (Collision Rule C). On the spec's own example, merging the priority
    package ["python"] over the incumbent [otherlib.open]: the bare name maps
    to the new entry, ["otherlib.open"] maps to the incumbent and the bare
    name is in [renamed_symbols], but the composite name ["otherlib.open"] is
    NOT in [renamed_symbols]: line 241 adds [symbol], not the name the
    incumbent was just stored under. *)
Theorem rule_C_composite_name_not_marked :
  returned python_over_otherlib = Some true ∧
  doc_symbols (final_state python_over_otherlib).1 !! "open" = Some python_open ∧
  doc_symbols (final_state python_over_otherlib).1 !! "otherlib.open" = Some otherlib_open ∧
  "open" ∈ renamed_symbols (final_state python_over_otherlib).1 ∧
  "otherlib.open" ∉ renamed_symbols (final_state python_over_otherlib).1.
Proof.
  split; [evaluate |]. split; [evaluate |]. split; [evaluate |].
  split; [apply (bool_decide_unpack _) | apply (bool_decide_unpack _)];
    vm_compute; exact I.
Qed.

(** C2 (retry backoff). Two consecutive failed fetches of the inventory of
    ["aiohttp"], with no success in between: the first schedules a retry
    after 120 seconds and puts the package name in [scheduled_inventories];
    the second schedules 120 seconds again, not 300, because line 208 looks
    the inventory URL up in a set that holds package names. *)
Theorem retry_backoff_second_failure_two_minutes :
  ∃ c1 c2,
    update_single "aiohttp" "https://docs.aiohttp.org/en/stable/"
      "https://docs.aiohttp.org/en/stable/objects.inv" None
      (DocCog_init, Store_init) = Normal false (c1, Store_init) ∧
    update_single "aiohttp" "https://docs.aiohttp.org/en/stable/"
      "https://docs.aiohttp.org/en/stable/objects.inv" None
      (c1, Store_init) = Normal false (c2, Store_init) ∧
    "aiohttp" ∈ scheduled_inventories c1 ∧
    delay <$> inventory_scheduler c2 = [120; 120]%Z.
Proof.
  destruct (update_single_failure_twice "aiohttp" "https://docs.aiohttp.org/en/stable/"
              "https://docs.aiohttp.org/en/stable/objects.inv" DocCog_init Store_init)
    as (c1 & c2 & H1 & H2 & Hin & Hlog).
  - simpl. apply not_elem_of_empty.
  - discriminate.
  - exists c1, c2. rewrite Hlog. done.
Qed.

Lemma merge_symbol_malformed_group (pkg base grp sym rel : string) (s : CogState) :
  contains_char "/" sym = false → contains_char ":" grp = false →
  merge_symbol pkg base grp (sym, rel) s = Raised IndexError s.
Proof.
  intros Hslash Hcolon. unfold merge_symbol.
  by rewrite Hslash, (split_no_sep _ _ Hcolon).
Qed.

Lemma merge_items_app (pkg base grp : string) (xs ys : list (string * string))
    (s : CogState) :
  merge_items pkg base grp (xs ++ ys) s =
    bind (merge_items pkg base grp xs s) (λ _, merge_items pkg base grp ys).
Proof.
  revert s. induction xs as [|x xs IH]; intros s; simpl; [done |].
  destruct (merge_symbol pkg base grp x s) as [[] s' | e s']; simpl; [apply IH | done].
Qed.

Lemma merge_package_app (pkg base : string) (xs ys : Inventory) (s : CogState) :
  merge_package pkg base (xs ++ ys) s =
    bind (merge_package pkg base xs s) (λ _, merge_package pkg base ys).
Proof.
  revert s. induction xs as [|[g items] xs IH]; intros s; simpl; [done |].
  destruct (merge_items pkg base g items s) as [[] s' | e s']; simpl; [apply IH | done].
Qed.

(** Symbols with a slash are skipped before their group is looked at. *)
Lemma merge_items_unreachable (pkg base grp : string) (items : list (string * string))
    (s : CogState) :
  Forall (λ entry, contains_char "/" entry.1 = true) items →
  merge_items pkg base grp items s = Normal () s.
Proof.
  induction 1 as [|[sym rel] items Hslash _ IH]; simpl; [done |].
  simpl in Hslash. by rewrite Hslash.
Qed.

(** C4, as the code has it. An entry without a slash in its name whose group
    identifier has no colon makes the merge of the package raise
    [IndexError] at that entry: the groups merged before it stay merged, and
    neither the entry nor anything after it in the package is merged. (The
    entries before it in its own group can only be ones skipped for a slash
    in their name.) *)
Theorem malformed_group_aborts_package (pkg base grp sym rel : string)
    (groups_before groups_after : Inventory)
    (items_before items_after : list (string * string)) (s s1 : CogState) :
  contains_char "/" sym = false →
  contains_char ":" grp = false →
  Forall (λ entry, contains_char "/" entry.1 = true) items_before →
  merge_package pkg base groups_before s = Normal () s1 →
  merge_package pkg base
    (groups_before ++ (grp, items_before ++ (sym, rel) :: items_after) :: groups_after) s
  = Raised IndexError s1.
Proof.
  intros Hslash Hcolon Hitems Hgroups.
  rewrite merge_package_app, Hgroups. cbn [bind merge_package].
  rewrite merge_items_app, (merge_items_unreachable _ _ _ _ _ Hitems).
  cbn [bind merge_items].
  by rewrite (merge_symbol_malformed_group _ _ _ _ _ _ Hslash Hcolon).
Qed.

Lemma malformed_group_aborts_package_witness :
  merge_package "lib" "https://lib.example/"
    ([("py:function", [("open", "functions.html#open")])] ++
     ("label", [("c-api/index", "c-api/index.html")] ++
               ("intro", "intro.html#intro") :: [("usage", "usage.html")])
       :: [("py:class", [("Client", "api.html#Client")])])
    (DocCog_init, Store_init)
  = Raised IndexError
      (final_state (merge_package "lib" "https://lib.example/"
                      [("py:function", [("open", "functions.html#open")])]
                      (DocCog_init, Store_init))).
Proof.
  apply (malformed_group_aborts_package "lib" "https://lib.example/" "label" "intro"
           "intro.html#intro").
  - reflexivity.
  - reflexivity.
  - repeat constructor.
  - vm_compute. reflexivity.
Defined.

(** C4, as the claim states it, fails: with a group ["label"] in front, the
    merge raises and the well-formed entry after it is never merged, while
    the same inventory without the malformed entry merges it. *)
Lemma malformed_group_entry_not_skipped :
  raised (merge_package "lib" "https://lib.example/" malformed_inventory
            (DocCog_init, Store_init)) = Some IndexError ∧
  doc_symbols (final_state (merge_package "lib" "https://lib.example/" malformed_inventory
                              (DocCog_init, Store_init))).1 !! "open" = None ∧
  returned (merge_package "lib" "https://lib.example/" malformed_entry_removed
              (DocCog_init, Store_init)) = Some () ∧
  doc_symbols (final_state (merge_package "lib" "https://lib.example/"
                              malformed_entry_removed (DocCog_init, Store_init))).1 !! "open"
    = Some (mkDocItem "lib" "function" "https://lib.example/" "functions.html" "open").
Proof. split; [evaluate |]. split; [evaluate |]. split; evaluate. Qed.

(** C5 (Collision Rule A). An entry whose kind is in the force-prefix set and
    whose bare name is taken is stored under [<kind>.<symbol>]; that name is
    in [renamed_symbols]; the bare name still maps to the incumbent. *)
Theorem rule_A_force_prefix_kind (pkg base grp kind sym rel : string) (inc : DocItem)
    (s : CogState) :
  contains_char "/" sym = false →
  split ":" grp !! 1%nat = Some kind →
  kind ∈ FORCE_PREFIX_GROUPS →
  doc_symbols s.1 !! sym = Some inc →
  ∃ s', merge_symbol pkg base grp (sym, rel) s = Normal () s' ∧
        doc_symbols s'.1 !! dotted kind sym = Some (make_symbol_item pkg kind base rel) ∧
        dotted kind sym ∈ renamed_symbols s'.1 ∧
        doc_symbols s'.1 !! sym = Some inc.
Proof.
  destruct s as [c σ]. simpl. intros Hslash Hkind HA Hinc.
  destruct (merge_symbol_resolved pkg base grp kind sym rel c σ Hslash Hkind)
    as (s' & Hrun & Hdoc & Hren).
  rewrite (resolve_name_rule_A pkg kind sym inc c Hinc HA) in Hdoc, Hren.
  exists s'. split; [done |]. rewrite Hdoc, Hren. simpl.
  split; [apply lookup_insert_eq |].
  split; [apply elem_of_union_l; by apply elem_of_singleton |].
  by rewrite lookup_insert_ne by apply dotted_ne.
Qed.

Lemma rule_A_force_prefix_kind_witness :
  ∃ s', merge_symbol "libA" "https://liba.example/" "std:label"
          ("bind", "guide.html#bind") after_libB = Normal () s' ∧
        doc_symbols s'.1 !! "label.bind" =
          Some (mkDocItem "libA" "label" "https://liba.example/" "guide.html" "bind") ∧
        "label.bind" ∈ renamed_symbols s'.1 ∧
        doc_symbols s'.1 !! "bind" = Some libB_bind.
Proof.
  apply (rule_A_force_prefix_kind "libA" "https://liba.example/" "std:label" "label"
           "bind" "guide.html#bind" libB_bind after_libB).
  - reflexivity.
  - reflexivity.
  - apply (bool_decide_unpack _). vm_compute. exact I.
  - vm_compute. reflexivity.
Defined.



(** ** The queue *)

Lemma index_Some (item : DocItem) (q : list QueueItem) (i : nat) :
  index item q = Some i → ∃ qi, q !! i = Some qi ∧ symbol qi = item.
Proof.
  revert i. induction q as [|qi q IH]; intros i; simpl; [done |].
  unfold QueueItem_eq_DocItem. case_bool_decide as Heq.
  - intros [= <-]. by exists qi.
  - destruct (index item q) as [j|]; [| done].
    intros [= <-]. by apply IH.
Qed.

Lemma index_None (item : DocItem) (q : list QueueItem) :
  index item q = None ↔ Forall (λ qi, symbol qi ≠ item) q.
Proof.
  induction q as [|qi q IH]; simpl.
  - split; [constructor | done].
  - unfold QueueItem_eq_DocItem. case_bool_decide as Heq.
    + split; [done |]. by inversion 1.
    + destruct (index item q) as [j|]; simpl.
      * split; [done |]. inversion 1 as [|? ? _ Hq]. by apply IH in Hq.
      * split; [| done]. intros _. constructor; [done |]. by apply IH.
Qed.

Lemma pop_snoc (q : list QueueItem) (qi : QueueItem) : pop (q ++ [qi]) = Some (qi, q).
Proof. unfold pop. by rewrite reverse_snoc, reverse_involutive. Qed.

(** An item that is in the queue is moved to the end, where the worker's
    [pop()] takes it next; the others keep their order. *)
Lemma _move_to_front_present (item : DocItem) (q : list QueueItem) (i : nat) :
  index item q = Some i →
  ∃ qi, q !! i = Some qi ∧ symbol qi = item ∧
        _move_to_front item q = Normal () (delete i q ++ [qi]) ∧
        pop (delete i q ++ [qi]) = Some (qi, delete i q).
Proof.
  intros Hi. destruct (index_Some _ _ _ Hi) as (qi & Hq & Hs).
  exists qi. unfold _move_to_front. rewrite Hi, Hq.
  split; [done |]. split; [done |]. split; [done |]. apply pop_snoc.
Qed.

(** An item that is not in the queue makes [_move_to_front] raise. *)
Lemma _move_to_front_absent (item : DocItem) (q : list QueueItem) :
  Forall (λ qi, symbol qi ≠ item) q → _move_to_front item q = Raised ValueError q.
Proof. intros H. unfold _move_to_front. by rewrite (proj2 (index_None _ _) H). Qed.

(** A call whose item is neither pending nor queued raises [ValueError]
    without touching the cache, also when its future already has a result. *)
Lemma get_markdown_call_absent (doc_item : DocItem) (r : Runtime) :
  _page_symbols (parser r) !! url doc_item = None →
  Forall (λ qi, symbol qi ≠ doc_item) (_queue (parser r)) →
  get_markdown_call doc_item r =
    mkRuntime (parser r) (store r) (calls r ++ [GRaised ValueError])
              (page_requests r) (extractions r).
Proof.
  intros Hpage Habsent. unfold get_markdown_call, get_markdown_tail.
  by rewrite Hpage, (_move_to_front_absent _ _ Habsent).
Qed.

(** C3 (reprioritisation of an absent item). Once [A] has been parsed and
    its future holds the markdown, a new [get_markdown(A)] finds [A] neither
    pending nor queued: [_move_to_front] raises [ValueError] at
    [self._queue.index(item)] and the call ends with that exception instead
    of returning the markdown. *)
Theorem move_to_front_raises_when_absent :
  calls <$> run extract_anchor parse_A Runtime_init = Some [GReturned "page#A"] ∧
  _queue (parser parsed_A) = [] ∧
  page_symbols_of (parser parsed_A) (store parsed_A) (url sym_A) = None ∧
  (f ← _item_futures (parser parsed_A) !! sym_A; futures (store parsed_A) !! f)
    = Some (Some "page#A") ∧
  raised (_move_to_front sym_A (_queue (parser parsed_A))) = Some ValueError ∧
  calls (get_markdown_call sym_A parsed_A) = [GReturned "page#A"; GRaised ValueError].
Proof.
  split; [evaluate |]. split; [evaluate |]. split; [evaluate |]. split; [evaluate |].
  split; evaluate.
Qed.

(** ** Page batching and single flight *)

(** One request on a pending page: every symbol registered under the page is
    queued with the fetched soup and the page leaves [_page_symbols]. *)
Lemma get_markdown_queue_page_pending (doc_item : DocItem) (l : nat)
    (syms : list DocItem) (soup : Soup) (p : CachedParser) (σ : Store) :
  _page_symbols p !! url doc_item = Some l →
  lists σ !! l = Some syms →
  ∃ p' σ', get_markdown_queue_page doc_item l soup (p, σ) = Normal () (p', σ') ∧
           _queue p' = _queue p ++ ((λ symbol, mkQueueItem symbol soup) <$> syms) ∧
           _page_symbols p' = delete (url doc_item) (_page_symbols p) ∧
           is_Some (_parse_task p').
Proof.
  intros Hpage Hl. unfold get_markdown_queue_page. simpl.
  rewrite Hpage, Hl. simpl.
  destruct (_parse_task p) as [t|] eqn:Ht; eexists _, _; (split; [reflexivity |]);
    simpl; rewrite ?Ht; eauto.
Qed.

(** The page is gone when a second answer arrives: [del] raises, after the
    symbols were queued once more. *)
Lemma get_markdown_queue_page_gone (doc_item : DocItem) (l : nat) (soup : Soup)
    (p : CachedParser) (σ : Store) :
  _page_symbols p !! url doc_item = None →
  get_markdown_queue_page doc_item l soup (p, σ) =
    Raised KeyError
      (set_queue (_queue p ++ ((λ symbol, mkQueueItem symbol soup)
                                 <$> default [] (lists σ !! l))) p, σ).
Proof. intros Hpage. unfold get_markdown_queue_page. simpl. by rewrite Hpage. Qed.

(** The future of an item is made once: a call that finds one awaits it and
    leaves [_item_futures] and the futures as they are. *)
Lemma get_markdown_tail_reuses_future (doc_item : DocItem) (f i : nat)
    (p : CachedParser) (σ : Store) :
  _item_futures p !! doc_item = Some f →
  index doc_item (_queue p) = Some i →
  ∃ c p', get_markdown_tail doc_item (p, σ) = (c, (p', σ)) ∧
          _item_futures p' = _item_futures p ∧
          (c = GAtFuture doc_item f ∨ ∃ md, c = GReturned md ∧ futures σ !! f = Some (Some md)).
Proof.
  intros Hf Hi. destruct (_move_to_front_present _ _ _ Hi) as (qi & _ & _ & Hmove & _).
  unfold get_markdown_tail. rewrite Hmove. simpl. rewrite Hf.
  destruct (futures σ !! f) as [[md|]|] eqn:Hfut; eexists _, _;
    (split; [reflexivity |]); (split; [done |]); eauto.
Qed.

(** C6 (page batching). [A] and [B] are on one page; [get_markdown(B)] is
    called while the page request of [get_markdown(A)] is in flight: the page
    is still in [_page_symbols] (it is removed on line 104, after the await),
    so a second request for the same page is sent, both symbols are queued
    twice and the second call ends with [KeyError]. *)
Theorem page_requested_twice_under_race
    (get_symbol_markdown : Soup → DocItem → option Markdown) :
  let after := run get_symbol_markdown two_symbols_race Runtime_init in
  page_requests <$> after = Some [url sym_A; url sym_A] ∧
  (λ r, symbol <$> _queue (parser r)) <$> after = Some [sym_B; sym_A; sym_A; sym_B] ∧
  calls <$> after = Some [GAtFuture sym_A 0; GRaised KeyError].
Proof. split; [evaluate |]. split; evaluate. Qed.

(** C7 (single flight). Two calls [get_markdown(A)] made before the page
    request of the first answers: [_item_futures] holds one future for [A],
    but [A] is queued twice (once per page request), so the extractor is
    invoked twice for [A]; the second [set_result] on the same future raises
    and ends the worker. *)
Theorem same_symbol_extracted_twice_under_race :
  let after := run extract_anchor same_symbol_race Runtime_init in
  page_requests <$> after = Some [url sym_A; url sym_A] ∧
  extractions <$> after = Some [sym_A; sym_A] ∧
  (λ r, map_to_list (_item_futures (parser r))) <$> after = Some [(sym_A, 0%nat)] ∧
  (λ r, futures (store r)) <$> after = Some [Some "page#A"] ∧
  (λ r, tasks (store r)) <$> after = Some [mkTask (WDone (Some InvalidStateError)) false].
Proof.
  split; [evaluate |]. split; [evaluate |]. split; [evaluate |]. split; evaluate.
Qed.

(** ** [clear] *)

Lemma cancel_task_idempotent (t : Task) : cancel_task (cancel_task t) = cancel_task t.
Proof. by destruct t as [[] ?]. Qed.

Lemma cancel_idempotent (t : nat) (σ : Store) : cancel t (cancel t σ) = cancel t σ.
Proof.
  unfold cancel. simpl. f_equal. rewrite list_alter_alter_eq.
  apply list_alter_ext; [| done]. intros k _. apply cancel_task_idempotent.
Qed.

(** The part of [clear()] after the waiting, done twice, is done once. *)
Lemma clear_sync_idempotent (ps : CachedParser * Store) :
  clear_sync (clear_sync ps) = clear_sync ps.
Proof.
  destruct ps as [p σ]. unfold clear_sync. simpl.
  destruct (_parse_task p) as [t|]; [| done].
  by rewrite cancel_idempotent.
Qed.

(** With no future in [_item_futures] there is nothing to wait for. *)
Lemma clear_no_futures (ps : CachedParser * Store) :
  _item_futures ps.1 = ∅ → clear ps = Some (clear_sync ps).
Proof.
  intros Hf. unfold clear. rewrite Hf.
  rewrite bool_decide_eq_true_2; [done |]. apply map_Forall_empty.
Qed.

(** C8 (idempotent clear), as the code has it. A [clear()] that follows a
    completed [clear()] completes at once and changes nothing. On a cache
    whose [_page_symbols], [_queue] and [_item_futures] are empty, [clear()]
    completes at once and leaves the four attributes of the cache, the lists
    and the futures as they were; the only thing it does is [cancel()] on the
    task behind [_parse_task] (lines 159-160). The whole state is unchanged
    when there is no such task, or when that task has ended or has a
    cancellation under way already. *)
Theorem clear_idempotent (ps : CachedParser * Store) :
  (∀ ps', clear ps = Some ps' → clear ps' = Some ps') ∧
  (_queue ps.1 = [] → _page_symbols ps.1 = ∅ → _item_futures ps.1 = ∅ →
   ∃ ps', clear ps = Some ps' ∧
          ps'.1 = ps.1 ∧
          ps'.2 = from_option (λ t, cancel t ps.2) ps.2 (_parse_task ps.1) ∧
          lists ps'.2 = lists ps.2 ∧ futures ps'.2 = futures ps.2 ∧
          (_parse_task ps.1 = None → ps' = ps) ∧
          ((∀ t k, _parse_task ps.1 = Some t → tasks ps.2 !! t = Some k →
                   task_live k = false ∨ must_cancel k = true) → ps' = ps)).
Proof.
  split.
  - intros ps' Hclear. unfold clear in Hclear.
    case_bool_decide; [| done]. injection Hclear as <-.
    rewrite clear_no_futures, clear_sync_idempotent; [done |].
    by destruct ps.
  - intros Hq Hp Hf. exists (clear_sync ps).
    split; [by apply clear_no_futures |].
    destruct ps as [[q pg fs pt] σ]. simpl in *. subst.
    split; [done |].
    destruct pt as [t|]; simpl; [| repeat split; done].
    repeat split; try done.
    intros Hquiet. f_equal. destruct σ as [ls fs ts]. unfold cancel. simpl. f_equal.
    apply list_eq. intros j. destruct (decide (j = t)) as [-> | Hne].
    + rewrite list_lookup_alter_eq.
      destruct (ts !! t) as [k|] eqn:Hk; [| done]. simpl. f_equal.
      destruct (Hquiet t k eq_refl Hk) as [Hdead | Hcancelled];
        destruct k as [[] mc]; simpl in *; try done; by subst.
    + by rewrite list_lookup_alter_ne.
Qed.

Lemma clear_idempotent_witness :
  (∃ ps', clear (CachedParser_init, Store_init) = Some ps' ∧
          ps' = (CachedParser_init, Store_init)) ∧
  (∃ ps', map_to_list (_item_futures (parser parsed_A)) = [(sym_A, 0%nat)] ∧
          clear (parser parsed_A, store parsed_A) = Some ps' ∧
          clear ps' = Some ps').
Proof.
  split.
  - destruct (proj2 (clear_idempotent (CachedParser_init, Store_init))
                eq_refl eq_refl eq_refl) as (ps' & Hclear & _ & _ & _ & _ & Hsame & _).
    exists ps'. split; [exact Hclear | exact (Hsame eq_refl)].
  - exists (clear_sync (parser parsed_A, store parsed_A)).
    split; [evaluate |]. split; [evaluate |].
    apply (proj1 (clear_idempotent (parser parsed_A, store parsed_A))). evaluate.
Defined.

(** C8, as the claim states it, fails: with the three containers empty and a
    worker awaiting [doc_cache.set], [clear()] is not a no-op. It asks the
    worker to cancel, and the worker's next step then ends it with
    [CancelledError], where without the [clear()] it would have gone on to
    its sleep. *)
Lemma clear_cancels_live_worker :
  _queue (parser live_worker_empty_cache) = [] ∧
  map_to_list (_page_symbols (parser live_worker_empty_cache)) = [] ∧
  map_to_list (_item_futures (parser live_worker_empty_cache)) = [] ∧
  _parse_task (parser live_worker_empty_cache) = Some 0%nat ∧
  tasks (store live_worker_empty_cache) = [mkTask (WAtCacheSet sym_A "page#A") false] ∧
  (λ ps, tasks ps.2) <$> clear (parser live_worker_empty_cache, store live_worker_empty_cache)
    = Some [mkTask (WAtCacheSet sym_A "page#A") true] ∧
  clear (parser live_worker_empty_cache, store live_worker_empty_cache)
    ≠ Some (parser live_worker_empty_cache, store live_worker_empty_cache) ∧
  (λ r, tasks (store r)) <$> run extract_anchor [EWorker 0 true] live_worker_empty_cache
    = Some [mkTask WAtSleep false] ∧
  (λ r, tasks (store r)) <$> run extract_anchor [EClear; EWorker 0 true] live_worker_empty_cache
    = Some [mkTask (WDone (Some CancelledError)) false].
Proof.
  split; [evaluate |]. split; [evaluate |]. split; [evaluate |]. split; [evaluate |].
  split; [evaluate |]. split; [evaluate |]. split; [| split; evaluate].
  intros H. apply (f_equal (fmap (λ ps : CachedParser * Store, tasks ps.2))) in H.
  vm_compute in H. discriminate.
Qed.

(** ** The worker handle *)

(** A worker whose body has started resets [_parse_task] whenever it ends:
    on the empty queue, on an exception that leaves the loop, on a
    cancellation delivered at one of its awaits. *)
Lemma worker_end_resets_handle (get_symbol_markdown : Soup → DocItem → option Markdown)
    (t : nat) (cache_ok : bool) (r r' : Runtime) (k : Task) (err : option exn) :
  tasks (store r) !! t = Some k →
  pc k ≠ WCreated ∨ must_cancel k = false →
  _parse_queue_step get_symbol_markdown t cache_ok r = Some r' →
  tasks (store r') !! t = Some (mkTask (WDone err) false) →
  _parse_task (parser r') = None.
Proof.
  intros Hk Hstarted Hstep Hdone.
  pose proof (lookup_lt_Some _ _ _ Hk) as Hlt.
  assert (Hother : ∀ next p' c' pr' ex',
    r' = mkRuntime p' (set_task t (mkTask next false) (store r)) c' pr' ex' →
    (∀ e, next ≠ WDone e) → _parse_task (parser r') = None).
  { intros next p' c' pr' ex' -> Hnext. simpl in Hdone.
    rewrite list_lookup_insert_eq in Hdone by done.
    injection Hdone as Hd. by destruct (Hnext err). }
  unfold _parse_queue_step in Hstep. rewrite Hk in Hstep.
  destruct k as [[| item md | | e] [|]]; simpl in Hstarted;
    try (by destruct Hstarted); try done;
    try (injection Hstep as <-; done).
  - (* first step *)
    injection Hstep as <-. unfold _parse_queue_loop in *.
    destruct (pop (_queue (parser r))) as [[qi q]|]; [| done].
    eapply Hother; [reflexivity |].
    intros e. by destruct (get_symbol_markdown (soup qi) (symbol qi)).
  - (* after [doc_cache.set] *)
    destruct cache_ok; injection Hstep as <-.
    + unfold _parse_queue_set_result in *.
      destruct (_item_futures (parser r) !! item) as [f|].
      * destruct (futures (store r) !! f) as [[x|]|]; try done.
        simpl in Hdone. rewrite list_lookup_insert_eq in Hdone by done. done.
      * simpl in Hdone. rewrite list_lookup_insert_eq in Hdone by done. done.
    + simpl in Hdone. rewrite list_lookup_insert_eq in Hdone by done. done.
  - (* after the sleep *)
    injection Hstep as <-. unfold _parse_queue_loop in *.
    destruct (pop (_queue (parser r))) as [[qi q]|]; [| done].
    eapply Hother; [reflexivity |].
    intros e. by destruct (get_symbol_markdown (soup qi) (symbol qi)).
Qed.

(** C9 (worker handle). [clear()] cancels a worker task that was created
    and has not run yet: the task ends without entering its body, the
    [finally] clause never runs and [_parse_task] keeps the dead task. The
    next request that fetches a page queues its symbols and starts no worker:
    the queue is not empty, no worker is running or can run, and the call
    waits on a future nobody will resolve. *)
Theorem cancelled_before_start_keeps_handle :
  let after := run extract_anchor cancel_before_start Runtime_init in
  (λ r, _queue (parser r)) <$> after = Some [mkQueueItem sym_B "page"] ∧
  (λ r, _parse_task (parser r)) <$> after = Some (Some 1%nat) ∧
  (λ r, tasks (store r)) <$> after
    = Some [mkTask (WDone None) false; mkTask (WDone (Some CancelledError)) false] ∧
  worker_running <$> after = Some false ∧
  calls <$> after = Some [GReturned "page#A"; GReturned "page#A"; GAtFuture sym_B 1] ∧
  (λ r, futures (store r)) <$> after = Some [Some "page#A"; None] ∧
  ∀ t cache_ok, after ≫= _parse_queue_step extract_anchor t cache_ok = None.
Proof.
  split; [evaluate |]. split; [evaluate |]. split; [evaluate |]. split; [evaluate |].
  split; [evaluate |]. split; [evaluate |].
  intros [|[|t]] cache_ok; evaluate.
Qed.

(** * Further properties of the symbol table builder *)

(** What [resolve_name] leaves alone. *)
Lemma resolve_name_frame (pkg kind sym : string) (c : DocCog) :
  base_urls (resolve_name pkg kind sym c).2 = base_urls c ∧
  scheduled_inventories (resolve_name pkg kind sym c).2 = scheduled_inventories c ∧
  inventory_scheduler (resolve_name pkg kind sym c).2 = inventory_scheduler c ∧
  item_fetcher (resolve_name pkg kind sym c).2 = item_fetcher c.
Proof.
  unfold resolve_name.
  destruct (doc_symbols c !! sym) as [inc|]; [| done].
  repeat case_match; done.
Qed.

(** The loop body on a symbol without a slash in a well-formed group. *)
Lemma merge_symbol_unfold (pkg base grp kind sym rel : string) (c : DocCog) (σ : Store) :
  contains_char "/" sym = false →
  split ":" grp !! 1%nat = Some kind →
  merge_symbol pkg base grp (sym, rel) (c, σ) =
    Normal () (fetcher_add_item (make_symbol_item pkg kind base rel)
                 (set_doc_symbol (resolve_name pkg kind sym c).1
                                 (make_symbol_item pkg kind base rel)
                                 (resolve_name pkg kind sym c).2, σ)).
Proof.
  intros Hslash Hkind. unfold merge_symbol. rewrite Hslash, Hkind.
  by destruct (resolve_name pkg kind sym c).
Qed.

(** The three ways the loop body can go. *)
Lemma merge_symbol_cases (pkg base grp sym rel : string) (s : CogState) :
  merge_symbol pkg base grp (sym, rel) s = Normal () s ∨
  merge_symbol pkg base grp (sym, rel) s = Raised IndexError s ∨
  ∃ kind, contains_char "/" sym = false ∧ split ":" grp !! 1%nat = Some kind.
Proof.
  unfold merge_symbol.
  destruct (contains_char "/" sym); [by left |].
  destruct (split ":" grp !! 1%nat) as [kind|]; [| by right; left].
  right; right. by exists kind.
Qed.

Lemma make_symbol_item_package (pkg kind base rel : string) :
  package (make_symbol_item pkg kind base rel) = pkg.
Proof. unfold make_symbol_item. by destruct (partition "#" rel) as [[? ?] ?]. Qed.

Section Lifting.

(** A relation between the states before and after that holds across one
    loop body holds across the merge of a whole package, raised or not. *)
Variables (pkg base : string) (R : CogState → CogState → Prop).
Hypothesis R_refl : ∀ s, R s s.
Hypothesis R_trans : ∀ s1 s2 s3, R s1 s2 → R s2 s3 → R s1 s3.
Hypothesis R_symbol :
  ∀ grp entry s, R s (final_state (merge_symbol pkg base grp entry s)).

Lemma merge_items_lift (grp : string) (items : list (string * string)) (s : CogState) :
  R s (final_state (merge_items pkg base grp items s)).
Proof.
  revert s. induction items as [|entry items IH]; intros s; simpl; [apply R_refl |].
  pose proof (R_symbol grp entry s) as Hstep.
  destruct (merge_symbol pkg base grp entry s) as [[] s' | e s']; simpl in *; [| done].
  eapply R_trans; [exact Hstep | apply IH].
Qed.

Lemma merge_package_lift (package : Inventory) (s : CogState) :
  R s (final_state (merge_package pkg base package s)).
Proof.
  revert s. induction package as [|[grp items] package IH]; intros s; simpl;
    [apply R_refl |].
  pose proof (merge_items_lift grp items s) as Hstep.
  destruct (merge_items pkg base grp items s) as [[] s' | e s']; simpl in *; [| done].
  eapply R_trans; [exact Hstep | apply IH].
Qed.

End Lifting.

(** X1. A symbol whose name is free is stored under that name; no other
    name of the table changes and nothing is marked as renamed. *)
Theorem merge_symbol_free_name (pkg base grp kind sym rel : string) (s : CogState) :
  contains_char "/" sym = false →
  split ":" grp !! 1%nat = Some kind →
  doc_symbols s.1 !! sym = None →
  ∃ s', merge_symbol pkg base grp (sym, rel) s = Normal () s' ∧
        doc_symbols s'.1 = <[sym := make_symbol_item pkg kind base rel]> (doc_symbols s.1) ∧
        renamed_symbols s'.1 = renamed_symbols s.1.
Proof.
  destruct s as [c σ]. simpl. intros Hslash Hkind Hfree.
  destruct (merge_symbol_resolved pkg base grp kind sym rel c σ Hslash Hkind)
    as (s' & Hrun & Hdoc & Hren).
  exists s'. split; [done |].
  unfold resolve_name in Hdoc, Hren. rewrite Hfree in Hdoc, Hren. done.
Qed.

Lemma merge_symbol_free_name_witness :
  ∃ s', merge_symbol "libB" "https://libb.example/" "py:func" ("bind", "api.html#bind")
          (DocCog_init, Store_init) = Normal () s' ∧
        doc_symbols s'.1 = <[ "bind" := libB_bind ]> ∅ ∧
        renamed_symbols s'.1 = ∅.
Proof.
  apply (merge_symbol_free_name "libB" "https://libb.example/" "py:func" "func" "bind"
           "api.html#bind" (DocCog_init, Store_init)); reflexivity.
Defined.

(** X2. Rule B when the candidate name is not marked yet: the incumbent
    of a force-prefix kind moves to [<its kind>.<symbol>], that name is the one
    marked, and the new entry takes the bare name. *)
Theorem rule_B_incumbent_moves (pkg base grp kind sym rel : string) (inc : DocItem)
    (s : CogState) :
  contains_char "/" sym = false →
  split ":" grp !! 1%nat = Some kind →
  doc_symbols s.1 !! sym = Some inc →
  kind ∉ FORCE_PREFIX_GROUPS →
  group inc ∈ FORCE_PREFIX_GROUPS →
  dotted (group inc) sym ∉ renamed_symbols s.1 →
  ∃ s', merge_symbol pkg base grp (sym, rel) s = Normal () s' ∧
        doc_symbols s'.1 !! sym = Some (make_symbol_item pkg kind base rel) ∧
        doc_symbols s'.1 !! dotted (group inc) sym = Some inc ∧
        renamed_symbols s'.1 = {[dotted (group inc) sym]} ∪ renamed_symbols s.1.
Proof.
  destruct s as [c σ]. simpl. intros Hslash Hkind Hinc HA HB Hnot.
  destruct (merge_symbol_resolved pkg base grp kind sym rel c σ Hslash Hkind)
    as (s' & Hrun & Hdoc & Hren).
  rewrite (resolve_name_rule_B pkg kind sym inc c Hinc HA HB) in Hdoc, Hren.
  rewrite (bool_decide_eq_false_2 _ Hnot) in Hdoc, Hren.
  exists s'. split; [done |]. rewrite Hdoc, Hren. simpl.
  split; [apply lookup_insert_eq |]. split; [| done].
  rewrite lookup_insert_ne by (intros H; symmetry in H; by apply dotted_ne in H).
  apply lookup_insert_eq.
Qed.

Lemma rule_B_incumbent_moves_witness :
  ∃ s', merge_symbol "lib" "https://lib.example/" "py:class" ("codec", "api.html#codec")
          after_docs1 = Normal () s' ∧
        doc_symbols s'.1 !! "codec" =
          Some (mkDocItem "lib" "class" "https://lib.example/" "api.html" "codec") ∧
        doc_symbols s'.1 !! "term.codec" = Some docs1_codec ∧
        renamed_symbols s'.1 = {["term.codec"]} ∪ renamed_symbols after_docs1.1.
Proof.
  apply (rule_B_incumbent_moves "lib" "https://lib.example/" "py:class" "class" "codec"
           "api.html#codec" docs1_codec after_docs1).
  - reflexivity.
  - reflexivity.
  - vm_compute. reflexivity.
  - apply (bool_decide_unpack _). vm_compute. exact I.
  - apply (bool_decide_unpack _). vm_compute. exact I.
  - apply (bool_decide_unpack _). vm_compute. exact I.
Defined.

(** X3. Rule D: with neither kind in the force-prefix set and a package
    that has no priority, the new entry goes under [<package>.<symbol>], that
    name is marked, and the bare name keeps the incumbent. *)
Theorem rule_D_package_prefix (pkg base grp kind sym rel : string) (inc : DocItem)
    (s : CogState) :
  contains_char "/" sym = false →
  split ":" grp !! 1%nat = Some kind →
  doc_symbols s.1 !! sym = Some inc →
  kind ∉ FORCE_PREFIX_GROUPS →
  group inc ∉ FORCE_PREFIX_GROUPS →
  pkg ∉ PRIORITY_PACKAGES →
  ∃ s', merge_symbol pkg base grp (sym, rel) s = Normal () s' ∧
        doc_symbols s'.1 !! dotted pkg sym = Some (make_symbol_item pkg kind base rel) ∧
        doc_symbols s'.1 !! sym = Some inc ∧
        renamed_symbols s'.1 = {[dotted pkg sym]} ∪ renamed_symbols s.1.
Proof.
  destruct s as [c σ]. simpl. intros Hslash Hkind Hinc HA HB HC.
  destruct (merge_symbol_resolved pkg base grp kind sym rel c σ Hslash Hkind)
    as (s' & Hrun & Hdoc & Hren).
  rewrite (resolve_name_rule_D pkg kind sym inc c Hinc HA HB HC) in Hdoc, Hren.
  exists s'. split; [done |]. rewrite Hdoc, Hren. simpl.
  split; [apply lookup_insert_eq |]. split; [| done].
  by rewrite lookup_insert_ne by apply dotted_ne.
Qed.

Lemma rule_D_package_prefix_witness :
  ∃ s', merge_symbol "lib" "https://lib.example/" "py:function"
          ("open", "functions.html#open") after_otherlib = Normal () s' ∧
        doc_symbols s'.1 !! "lib.open" =
          Some (mkDocItem "lib" "function" "https://lib.example/" "functions.html" "open") ∧
        doc_symbols s'.1 !! "open" = Some otherlib_open ∧
        renamed_symbols s'.1 = {["lib.open"]} ∪ renamed_symbols after_otherlib.1.
Proof.
  apply (rule_D_package_prefix "lib" "https://lib.example/" "py:function" "function" "open"
           "functions.html#open" otherlib_open after_otherlib).
  - reflexivity.
  - reflexivity.
  - vm_compute. reflexivity.
  - apply (bool_decide_unpack _). vm_compute. exact I.
  - apply (bool_decide_unpack _). vm_compute. exact I.
  - apply (bool_decide_unpack _). vm_compute. exact I.
Defined.
(** [add_item] keeps the page index inside the store, leaves the symbol on
    the list of its page, and takes nothing off any list. *)
Lemma add_item_pending (d : DocItem) (p : CachedParser) (σ : Store) :
  pages_in_store p σ →
  pages_in_store (add_item d (p, σ)).1 (add_item d (p, σ)).2 ∧
  (∃ syms, page_symbols_of (add_item d (p, σ)).1 (add_item d (p, σ)).2 (url d) = Some syms ∧
           d ∈ syms) ∧
  (∀ u syms, page_symbols_of p σ u = Some syms →
     ∃ syms', page_symbols_of (add_item d (p, σ)).1 (add_item d (p, σ)).2 u = Some syms' ∧
              ∀ x, x ∈ syms → x ∈ syms').
Proof.
  intros Hwf. unfold add_item, page_symbols_of, pages_in_store in *.
  destruct (_page_symbols p !! url d) as [l|] eqn:Hl; simpl.
  - pose proof (Hwf _ _ Hl) as Hlt.
    destruct (lookup_lt_is_Some_2 _ _ Hlt) as [syms0 Hs0].
    split; [intros u l0 Hu; rewrite length_alter; by eapply Hwf |].
    split.
    + exists (syms0 ++ [d]). rewrite Hl. simpl.
      rewrite list_lookup_alter_eq, Hs0. split; [done |].
      apply elem_of_app. right. by apply list_elem_of_singleton.
    + intros u syms Hu.
      destruct (_page_symbols p !! u) as [l0|]; simpl in *; [| done].
      destruct (decide (l = l0)) as [<- | Hne].
      * rewrite list_lookup_alter_eq, Hu. simpl. eexists. split; [done |].
        intros x Hx. apply elem_of_app. by left.
      * rewrite list_lookup_alter_ne by done. eauto.
  - split.
    { intros u l0 Hu. rewrite length_app. simpl.
      apply lookup_insert_Some in Hu as [[_ <-] | [_ Hu]]; [lia |].
      apply Hwf in Hu. lia. }
    split.
    + exists [d]. rewrite lookup_insert_eq. simpl.
      rewrite list_lookup_middle by done. split; [done |].
      by apply list_elem_of_singleton.
    + intros u syms Hu.
      destruct (_page_symbols p !! u) as [l0|] eqn:Hl0; simpl in *; [| done].
      assert (url d ≠ u) by (intros <-; congruence).
      rewrite lookup_insert_ne by done. rewrite Hl0. simpl.
      rewrite lookup_app_l by (by eapply Hwf). eauto.
Qed.

Lemma resolve_name_grows (pkg kind sym : string) (c : DocCog) :
  (∀ name, is_Some (doc_symbols c !! name) →
           is_Some (doc_symbols (resolve_name pkg kind sym c).2 !! name)) ∧
  renamed_symbols c ⊆ renamed_symbols (resolve_name pkg kind sym c).2.
Proof.
  unfold resolve_name.
  destruct (doc_symbols c !! sym) as [inc|]; [| done].
  repeat case_match; simpl; (split; [| apply union_subseteq_r]); try done;
    intros name Hname; apply lookup_insert_is_Some'; by right.
Qed.

Lemma resolve_name_locations (pkg kind sym name : string) (d : DocItem) (c : DocCog) :
  doc_symbols (resolve_name pkg kind sym c).2 !! name = Some d →
  ∃ name', doc_symbols c !! name' = Some d.
Proof.
  unfold resolve_name.
  destruct (doc_symbols c !! sym) as [inc|] eqn:Hinc; [| eauto].
  repeat case_match; simpl; eauto;
    intros [[_ <-] | [_ Hold]]%lookup_insert_Some; eauto.
Qed.

Lemma table_grows_refl (s : CogState) : table_grows s s.
Proof. by split. Qed.

Lemma table_grows_trans (s1 s2 s3 : CogState) :
  table_grows s1 s2 → table_grows s2 s3 → table_grows s1 s3.
Proof.
  intros [Hd1 Hr1] [Hd2 Hr2]. split; [eauto |]. by etrans.
Qed.

Lemma merge_symbol_grows (pkg base grp : string) (entry : string * string) (s : CogState) :
  table_grows s (final_state (merge_symbol pkg base grp entry s)).
Proof.
  destruct entry as [sym rel].
  destruct (merge_symbol_cases pkg base grp sym rel s) as [-> | [-> | (kind & Hs & Hk)]];
    [apply table_grows_refl .. |].
  destruct s as [c σ]. rewrite (merge_symbol_unfold _ _ _ _ _ _ _ _ Hs Hk).
  pose proof (fetcher_add_item_cog (make_symbol_item pkg kind base rel)
    (set_doc_symbol (resolve_name pkg kind sym c).1 (make_symbol_item pkg kind base rel)
       (resolve_name pkg kind sym c).2) σ) as (Hd & Hr & _).
  destruct (resolve_name_grows pkg kind sym c) as [Hgd Hgr].
  unfold table_grows. cbn [final_state]. rewrite Hd, Hr. split.
  - intros name Hname. apply lookup_insert_is_Some'. eauto.
  - done.
Qed.

(** X4. Merging never takes a name out of [doc_symbols] nor out of
    [renamed_symbols], whether the merge of the package completes or
    raises. *)
Theorem merge_package_never_removes (pkg base : string) (package : Inventory)
    (s : CogState) (name : string) :
  (is_Some (doc_symbols s.1 !! name) →
   is_Some (doc_symbols (final_state (merge_package pkg base package s)).1 !! name)) ∧
  (name ∈ renamed_symbols s.1 →
   name ∈ renamed_symbols (final_state (merge_package pkg base package s)).1).
Proof.
  destruct (merge_package_lift pkg base table_grows table_grows_refl table_grows_trans
              (merge_symbol_grows pkg base) package s) as [Hd Hr].
  split; [apply Hd | apply Hr].
Qed.

Lemma merge_package_never_removes_witness :
  is_Some (doc_symbols (final_state (merge_package "python" "https://docs.python.org/3/"
                                       python_inventory after_otherlib)).1 !! "open") ∧
  is_Some (doc_symbols (final_state (merge_package "lib" "https://lib.example/"
                                       malformed_inventory after_otherlib)).1 !! "open").
Proof.
  split.
  - apply (merge_package_never_removes "python" "https://docs.python.org/3/"
             python_inventory after_otherlib "open"). vm_compute. eauto.
  - apply (merge_package_never_removes "lib" "https://lib.example/"
             malformed_inventory after_otherlib "open"). vm_compute. eauto.
Defined.

Lemma locations_from_refl (pkg : string) (s : CogState) : locations_from pkg s s.
Proof. intros name d H. right. eauto. Qed.

Lemma locations_from_trans (pkg : string) (s1 s2 s3 : CogState) :
  locations_from pkg s1 s2 → locations_from pkg s2 s3 → locations_from pkg s1 s3.
Proof.
  intros H12 H23 name d H.
  destruct (H23 _ _ H) as [? | [name' H']]; [by left |]. eauto.
Qed.

Lemma merge_symbol_locations (pkg base grp : string) (entry : string * string)
    (s : CogState) :
  locations_from pkg s (final_state (merge_symbol pkg base grp entry s)).
Proof.
  destruct entry as [sym rel].
  destruct (merge_symbol_cases pkg base grp sym rel s) as [-> | [-> | (kind & Hs & Hk)]];
    [apply locations_from_refl .. |].
  destruct s as [c σ]. rewrite (merge_symbol_unfold _ _ _ _ _ _ _ _ Hs Hk).
  pose proof (fetcher_add_item_cog (make_symbol_item pkg kind base rel)
    (set_doc_symbol (resolve_name pkg kind sym c).1 (make_symbol_item pkg kind base rel)
       (resolve_name pkg kind sym c).2) σ) as (Hd & _).
  intros name d. cbn [final_state]. rewrite Hd. cbn [set_doc_symbol doc_symbols fst].
  intros [[_ <-] | [_ H]]%lookup_insert_Some.
  - left. apply make_symbol_item_package.
  - right. by eapply resolve_name_locations.
Qed.

(** X5. After the merge of a package, raised or not, every location in
    the table is a location of that package or a location the table held
    before: the merge moves incumbents to other names and never invents or
    alters a location. *)
Theorem merge_package_locations (pkg base : string) (inventory : Inventory)
    (s : CogState) (name : string) (d : DocItem) :
  doc_symbols (final_state (merge_package pkg base inventory s)).1 !! name = Some d →
  package d = pkg ∨ ∃ name', doc_symbols s.1 !! name' = Some d.
Proof.
  apply (merge_package_lift pkg base (locations_from pkg) (locations_from_refl pkg)
           (locations_from_trans pkg) (merge_symbol_locations pkg base) inventory s).
Qed.

Lemma merge_package_locations_witness :
  (package otherlib_open = "python" ∨
   ∃ name', doc_symbols after_otherlib.1 !! name' = Some otherlib_open).
Proof.
  apply (merge_package_locations "python" "https://docs.python.org/3/" python_inventory
           after_otherlib "otherlib.open" otherlib_open).
  vm_compute. reflexivity.
Defined.
Lemma fetcher_add_item_fetcher (d : DocItem) (c : DocCog) (σ : Store) :
  item_fetcher (fetcher_add_item d (c, σ)).1 = (add_item d (item_fetcher c, σ)).1 ∧
  (fetcher_add_item d (c, σ)).2 = (add_item d (item_fetcher c, σ)).2.
Proof.
  unfold fetcher_add_item. by destruct (add_item d (item_fetcher c, σ)).
Qed.

Lemma merge_symbol_all_pending (pkg base grp : string) (entry : string * string)
    (s : CogState) :
  all_pending s → all_pending (final_state (merge_symbol pkg base grp entry s)).
Proof.
  destruct entry as [sym rel].
  destruct (merge_symbol_cases pkg base grp sym rel s) as [-> | [-> | (kind & Hs & Hk)]];
    [done .. |].
  destruct s as [c σ]. rewrite (merge_symbol_unfold _ _ _ _ _ _ _ _ Hs Hk).
  set (item := make_symbol_item pkg kind base rel).
  set (c1 := (resolve_name pkg kind sym c).2).
  set (name := (resolve_name pkg kind sym c).1).
  intros [Hwf Hpend]. simpl in Hwf, Hpend.
  pose proof (fetcher_add_item_cog item (set_doc_symbol name item c1) σ) as (Hd & _).
  pose proof (fetcher_add_item_fetcher item (set_doc_symbol name item c1) σ) as [Hf Hσ].
  assert (Hfetch : item_fetcher (set_doc_symbol name item c1) = item_fetcher c)
    by apply resolve_name_frame.
  rewrite Hfetch in Hf, Hσ.
  destruct (add_item_pending item (item_fetcher c) σ Hwf) as (Hwf' & Hnew & Hold).
  unfold all_pending. cbn [final_state]. rewrite Hf, Hσ, Hd. split; [done |].
  intros name0 d. cbn [set_doc_symbol doc_symbols].
  intros [[_ <-] | [_ Hc1]]%lookup_insert_Some; [done |].
  destruct (resolve_name_locations _ _ _ _ _ _ Hc1) as [name' Hc].
  destruct (Hpend _ _ Hc) as (syms & Hsyms & Hin).
  destruct (Hold _ _ Hsyms) as (syms' & Hsyms' & Hsub). eauto.
Qed.

(** [update_single] keeps every location of the table registered. *)
Lemma update_single_keeps_pending (pkg base inv_url : string) (fetched : option Inventory)
    (s : CogState) :
  all_pending s →
  all_pending (final_state (update_single pkg base inv_url fetched s)).
Proof.
  destruct s as [c σ]. intros Hp. unfold update_single.
  destruct (falsy fetched); [exact Hp |].
  match goal with
  | |- all_pending (final_state (bind (merge_package _ _ _ ?s0) _)) =>
      pose proof (merge_package_lift pkg base (λ s s', all_pending s → all_pending s')
                    (λ _ H, H) (λ _ _ _ H1 H2 H, H2 (H1 H))
                    (merge_symbol_all_pending pkg base) (default [] fetched) s0 Hp) as Hlift;
      destruct (merge_package pkg base (default [] fetched) s0) as [[] s' | e s']
  end; exact Hlift.
Qed.

(** X6. If every location of the table is waiting under its page in
    [_page_symbols], this is still so after [update_single], however it ends:
    every location the merge stores is registered with the parse cache. *)
Theorem update_single_all_pending (pkg base inv_url : string) (fetched : option Inventory)
    (s : CogState) :
  all_pending s →
  all_pending (final_state (update_single pkg base inv_url fetched s)).
Proof. apply update_single_keeps_pending. Qed.

Lemma update_single_all_pending_witness :
  all_pending (final_state (update_single "python" "https://docs.python.org/3/"
                              "https://docs.python.org/3/objects.inv" (Some python_inventory)
                              (DocCog_init, Store_init))).
Proof.
  apply (update_single_all_pending "python" "https://docs.python.org/3/"
           "https://docs.python.org/3/objects.inv" (Some python_inventory)
           (DocCog_init, Store_init)).
  split.
  - intros u l H. vm_compute in H. discriminate.
  - intros name d H. vm_compute in H. discriminate.
Defined.

(** X7. A failed fetch, which includes an inventory that came back
    empty, leaves the table, the names marked as renamed and the parse cache
    as they were. It records the base URL, makes one [schedule_later] call
    for the package, after 300 seconds if the inventory URL is in
    [scheduled_inventories] and after 120 seconds otherwise, adds the package
    name to [scheduled_inventories], and returns [False]. *)
Theorem update_single_failure_keeps_table (pkg base inv_url : string)
    (fetched : option Inventory) (s : CogState) :
  falsy fetched = true →
  update_single pkg base inv_url fetched s =
    Normal false
      (mkDocCog (<[pkg := base]> (base_urls s.1)) (doc_symbols s.1) (item_fetcher s.1)
                (renamed_symbols s.1)
                (inventory_scheduler s.1 ++
                   [mkScheduled (if bool_decide (inv_url ∈ scheduled_inventories s.1)
                                 then 300 else 120)%Z pkg inv_url])
                ({[pkg]} ∪ scheduled_inventories s.1),
       s.2).
Proof.
  destruct s as [c σ]. intros Hf. unfold update_single. rewrite Hf. simpl.
  do 4 f_equal. repeat case_bool_decide; done.
Qed.

Lemma update_single_failure_keeps_table_witness :
  update_single "lib" "https://lib.example/" "https://lib.example/objects.inv"
    (Some []) after_otherlib =
  Normal false
    (mkDocCog (<["lib" := "https://lib.example/"]> (base_urls after_otherlib.1))
              (doc_symbols after_otherlib.1) (item_fetcher after_otherlib.1)
              (renamed_symbols after_otherlib.1)
              (inventory_scheduler after_otherlib.1 ++
                 [mkScheduled (if bool_decide ("https://lib.example/objects.inv"
                                                 ∈ scheduled_inventories after_otherlib.1)
                               then 300 else 120)%Z
                              "lib" "https://lib.example/objects.inv"])
              ({["lib"]} ∪ scheduled_inventories after_otherlib.1),
     after_otherlib.2).
Proof.
  apply (update_single_failure_keeps_table "lib" "https://lib.example/"
           "https://lib.example/objects.inv" (Some []) after_otherlib).
  reflexivity.
Defined.

Lemma same_bookkeeping_refl (s : CogState) : same_bookkeeping s s.
Proof. by repeat split. Qed.

Lemma same_bookkeeping_trans (s1 s2 s3 : CogState) :
  same_bookkeeping s1 s2 → same_bookkeeping s2 s3 → same_bookkeeping s1 s3.
Proof.
  intros (Hb1 & Hs1 & Hi1) (Hb2 & Hs2 & Hi2).
  repeat split; congruence.
Qed.

Lemma merge_symbol_bookkeeping (pkg base grp : string) (entry : string * string)
    (s : CogState) :
  same_bookkeeping s (final_state (merge_symbol pkg base grp entry s)).
Proof.
  destruct entry as [sym rel].
  destruct (merge_symbol_cases pkg base grp sym rel s) as [-> | [-> | (kind & Hs & Hk)]];
    [apply same_bookkeeping_refl .. |].
  destruct s as [c σ]. rewrite (merge_symbol_unfold _ _ _ _ _ _ _ _ Hs Hk).
  pose proof (fetcher_add_item_cog (make_symbol_item pkg kind base rel)
    (set_doc_symbol (resolve_name pkg kind sym c).1 (make_symbol_item pkg kind base rel)
       (resolve_name pkg kind sym c).2) σ) as (_ & _ & Hb & Hs' & Hi).
  destruct (resolve_name_frame pkg kind sym c) as (Hb0 & Hs0 & Hi0 & _).
  unfold same_bookkeeping. cbn [final_state]. rewrite Hb, Hs', Hi. simpl.
  by rewrite Hb0, Hs0, Hi0.
Qed.

(** X8. When the fetch returned a non-empty inventory, [update_single]
    records the base URL, takes the package out of [scheduled_inventories]
    and schedules nothing, also when the merge then raises. *)
Theorem update_single_success_bookkeeping (pkg base inv_url : string)
    (fetched : option Inventory) (s : CogState) :
  falsy fetched = false →
  base_urls (final_state (update_single pkg base inv_url fetched s)).1
    = <[pkg := base]> (base_urls s.1) ∧
  scheduled_inventories (final_state (update_single pkg base inv_url fetched s)).1
    = scheduled_inventories s.1 ∖ {[pkg]} ∧
  inventory_scheduler (final_state (update_single pkg base inv_url fetched s)).1
    = inventory_scheduler s.1.
Proof.
  destruct s as [c σ]. intros Hf. unfold update_single. rewrite Hf.
  match goal with
  | |- context [merge_package _ _ _ ?s0] =>
      pose proof (merge_package_lift pkg base same_bookkeeping same_bookkeeping_refl
                    same_bookkeeping_trans (merge_symbol_bookkeeping pkg base)
                    (default [] fetched) s0) as (Hb & Hs & Hi);
      destruct (merge_package pkg base (default [] fetched) s0) as [[] s' | e s']
  end; simpl in *; by rewrite Hb, Hs, Hi.
Qed.

Lemma update_single_success_bookkeeping_witness :
  scheduled_inventories
    (final_state (update_single "aiohttp" "https://docs.aiohttp.org/en/stable/"
                    "https://docs.aiohttp.org/en/stable/objects.inv"
                    (Some [("py:class", [("ClientSession", "client.html#ClientSession")])])
                    (final_state (update_single "aiohttp" "https://docs.aiohttp.org/en/stable/"
                                    "https://docs.aiohttp.org/en/stable/objects.inv" None
                                    (DocCog_init, Store_init))))).1
  = ({["aiohttp"]} ∪ ∅) ∖ {["aiohttp"]}.
Proof.
  apply (update_single_success_bookkeeping "aiohttp" "https://docs.aiohttp.org/en/stable/"
           "https://docs.aiohttp.org/en/stable/objects.inv"
           (Some [("py:class", [("ClientSession", "client.html#ClientSession")])])
           (final_state (update_single "aiohttp" "https://docs.aiohttp.org/en/stable/"
                           "https://docs.aiohttp.org/en/stable/objects.inv" None
                           (DocCog_init, Store_init)))).
  reflexivity.
Defined.

Lemma split_aux_sep (sep : ascii) (s : string) :
  contains_char sep s = true → (split_aux sep s).2 ≠ [].
Proof.
  induction s as [|a s IH]; simpl; [done |].
  destruct (split_aux sep s) as [piece pieces].
  destruct (Ascii.eqb a sep); [done |]. exact IH.
Qed.

(** A string with the separator has a second piece. *)
Lemma split_second (sep : ascii) (s : string) :
  contains_char sep s = true → is_Some (split sep s !! 1%nat).
Proof.
  intros H. apply split_aux_sep in H. unfold split.
  destruct (split_aux sep s) as [piece [|p pieces]]; [done |]. simpl. eauto.
Qed.

Lemma merge_items_well_formed (pkg base grp : string) (items : list (string * string))
    (s : CogState) :
  contains_char ":" grp = true →
  ∃ s', merge_items pkg base grp items s = Normal () s'.
Proof.
  intros Hcolon. destruct (split_second _ _ Hcolon) as [kind Hkind].
  revert s. induction items as [|[sym rel] items IH]; intros s;
    cbn [merge_items]; [eauto |].
  destruct (contains_char "/" sym) eqn:Hs.
  - unfold merge_symbol at 1. rewrite Hs. cbn [bind]. apply IH.
  - destruct s as [c σ]. rewrite (merge_symbol_unfold _ _ _ _ _ _ _ _ Hs Hkind).
    cbn [bind]. apply IH.
Qed.

(** X9. The merge only raises on a group identifier without a colon:
    when every group identifier of the inventory has one, the merge of the
    package runs to its end. *)
Theorem merge_package_well_formed (pkg base : string) (inventory : Inventory)
    (s : CogState) :
  Forall (λ g, contains_char ":" g.1 = true) inventory →
  ∃ s', merge_package pkg base inventory s = Normal () s'.
Proof.
  intros Hwf. revert s.
  induction Hwf as [|[grp items] inventory Hcolon _ IH]; intros s;
    cbn [merge_package]; [eauto |].
  destruct (merge_items_well_formed pkg base grp items s Hcolon) as [s' ->]. apply IH.
Qed.

Lemma merge_package_well_formed_witness :
  ∃ s', merge_package "lib" "https://lib.example/"
          [("std:label", [("intro", "intro.html#intro")]);
           ("py:function", [("open", "functions.html#open"); ("a/b", "a/b.html")])]
          after_otherlib = Normal () s'.
Proof.
  apply (merge_package_well_formed "lib" "https://lib.example/"
           [("std:label", [("intro", "intro.html#intro")]);
            ("py:function", [("open", "functions.html#open"); ("a/b", "a/b.html")])]
           after_otherlib).
  repeat constructor.
Defined.
(** * Properties of the embed of a symbol *)

Lemma append_assoc (s1 s2 s3 : string) : (s1 +:+ s2) +:+ s3 = s1 +:+ (s2 +:+ s3).
Proof.
  induction s1 as [|a s1 IH]; [done |].
  change (String a ((s1 +:+ s2) +:+ s3) = String a (s1 +:+ (s2 +:+ s3))). by f_equal.
Qed.

Lemma append_empty_r (s : string) : s +:+ "" = s.
Proof.
  induction s as [|a s IH]; [done |].
  change (String a (s +:+ "") = String a s). by f_equal.
Qed.

(** [partition] cuts the string at the first separator and loses nothing. *)
Lemma partition_spec (sep : ascii) (s : string) :
  (partition sep s).1.1 +:+ (partition sep s).1.2 +:+ (partition sep s).2 = s ∧
  (partition sep s).1.2 = (if contains_char sep s then String sep "" else "") ∧
  (contains_char sep s = false → (partition sep s).2 = "") ∧
  contains_char sep (partition sep s).1.1 = false.
Proof.
  induction s as [|a s (IH1 & IH2 & IH3 & IH4)]; simpl; [done |].
  destruct (Ascii.eqb a sep) eqn:Ha.
  - apply Ascii.eqb_eq in Ha as ->. done.
  - destruct (partition sep s) as [[before mid] after]. simpl in *.
    rewrite Ha. split; [| done].
    change (String a (before +:+ mid +:+ after) = String a s). by f_equal.
Qed.

(** X10. The URL of the embed of a merged symbol is the base URL followed
    by the relative URL of the inventory entry; when that entry has no
    anchor, a bare ["#"] is appended. *)
Theorem embed_url_of_merged_symbol (pkg kind base rel : string) :
  embed_url (make_symbol_item pkg kind base rel) =
    base +:+ rel +:+ (if contains_char "#" rel then "" else "#").
Proof.
  unfold embed_url, url, make_symbol_item.
  destruct (partition_spec "#" rel) as (Hjoin & Hmid & Hafter & _).
  destruct (partition "#" rel) as [[path mid] anchor]. simpl in *.
  rewrite append_assoc. f_equal.
  destruct (contains_char "#" rel).
  - rewrite append_empty_r. by subst mid.
  - rewrite (Hafter eq_refl) in *. subst mid. simpl in Hjoin.
    rewrite append_empty_r in Hjoin. by subst path.
Qed.





(** * Further properties of the parse cache *)

(** X12. [_move_to_front] either returns the queue with the same items
    in another order and the requested one last, where the worker's [pop()]
    takes it, or raises [ValueError] and leaves the queue as it was; it never
    drops or duplicates an item. *)
Theorem _move_to_front_keeps_items (item : DocItem) (q : list QueueItem) :
  (∃ q', _move_to_front item q = Normal () q' ∧ q' ≡ₚ q ∧
         symbol <$> last q' = Some item) ∨
  (_move_to_front item q = Raised ValueError q ∧ Forall (λ qi, symbol qi ≠ item) q).
Proof.
  destruct (index item q) as [i|] eqn:Hi.
  - left. destruct (_move_to_front_present _ _ _ Hi) as (qi & Hq & Hs & Hmove & _).
    exists (delete i q ++ [qi]). split; [done |]. split.
    + rewrite (delete_Permutation _ _ _ Hq) at 2. by rewrite <- Permutation_cons_append.
    + rewrite last_snoc. simpl. by rewrite Hs.
  - right. apply index_None in Hi. split; [by apply _move_to_front_absent | done].
Qed.

(** X13. [add_item] appends the symbol to the list of its page, a new
    list if the page had none, and leaves the lists of the other pages, the
    queue, the futures and the worker handle alone. *)
Theorem add_item_lookup (d : DocItem) (p : CachedParser) (σ : Store) :
  pages_in_store p σ → pages_distinct p →
  page_symbols_of (add_item d (p, σ)).1 (add_item d (p, σ)).2 (url d)
    = Some (default [] (page_symbols_of p σ (url d)) ++ [d]) ∧
  (∀ u, u ≠ url d →
        page_symbols_of (add_item d (p, σ)).1 (add_item d (p, σ)).2 u = page_symbols_of p σ u) ∧
  pages_in_store (add_item d (p, σ)).1 (add_item d (p, σ)).2 ∧
  pages_distinct (add_item d (p, σ)).1 ∧
  _queue (add_item d (p, σ)).1 = _queue p ∧
  _item_futures (add_item d (p, σ)).1 = _item_futures p ∧
  _parse_task (add_item d (p, σ)).1 = _parse_task p ∧
  futures (add_item d (p, σ)).2 = futures σ ∧
  tasks (add_item d (p, σ)).2 = tasks σ.
Proof.
  intros Hwf Hdist.
  destruct (add_item_pending d p σ Hwf) as (Hwf' & _ & _).
  split; [| split; [| split; [exact Hwf' | clear Hwf']]];
    unfold add_item, page_symbols_of, pages_distinct in *;
    destruct (_page_symbols p !! url d) as [l|] eqn:Hl; simpl.
  - destruct (lookup_lt_is_Some_2 _ _ (Hwf _ _ Hl)) as [syms0 Hs0].
    rewrite Hl. simpl. by rewrite list_lookup_alter_eq, Hs0.
  - rewrite lookup_insert_eq. simpl. by rewrite list_lookup_middle.
  - intros u Hu. destruct (_page_symbols p !! u) as [l0|] eqn:Hl0; simpl; [| done].
    rewrite list_lookup_alter_ne; [done |]. intros <-. apply Hu. by eapply Hdist.
  - intros u Hu. rewrite lookup_insert_ne by done.
    destruct (_page_symbols p !! u) as [l0|] eqn:Hl0; simpl; [| done].
    apply lookup_app_l. by eapply Hwf.
  - repeat split; done.
  - repeat split; try done.
    intros u u' l0 [[<- <-] | [Hne Hu]]%lookup_insert_Some
                   [[<- Hl'] | [Hne' Hu']]%lookup_insert_Some; try done.
    + apply Hwf in Hu'. lia.
    + apply Hwf in Hu. lia.
    + by eapply Hdist.
Qed.

Lemma add_item_lookup_witness :
  page_symbols_of (add_item sym_A (CachedParser_init, Store_init)).1
                  (add_item sym_A (CachedParser_init, Store_init)).2 (url sym_A)
    = Some ([] ++ [sym_A]).
Proof.
  refine (proj1 (add_item_lookup sym_A CachedParser_init Store_init _ _)).
  - intros u l H. vm_compute in H. discriminate.
  - intros u u' l H. vm_compute in H. discriminate.
Defined.
Lemma index_found (item : DocItem) (q : list QueueItem) :
  item ∈ symbol <$> q → is_Some (index item q).
Proof.
  intros Hin. destruct (index item q) as [i|] eqn:Hi; [eauto |].
  apply index_None in Hi. apply list_elem_of_fmap in Hin as (qi & -> & Hqi).
  rewrite Forall_forall in Hi. by destruct (Hi _ Hqi).
Qed.

(** Reprioritising an item that is in the queue. *)
Lemma _move_to_front_found (item : DocItem) (q : list QueueItem) :
  item ∈ symbol <$> q →
  ∃ q', _move_to_front item q = Normal () q' ∧ q' ≡ₚ q ∧ symbol <$> last q' = Some item.
Proof.
  intros [i Hi]%index_found.
  destruct (_move_to_front_present _ _ _ Hi) as (qi & Hq & Hs & Hmove & _).
  exists (delete i q ++ [qi]). split; [done |]. split.
  - rewrite (delete_Permutation _ _ _ Hq) at 2. by rewrite <- Permutation_cons_append.
  - rewrite last_snoc. simpl. by rewrite Hs.
Qed.

(** Lines 110-113 for an item that is in the queue: what changes is the
    order of the queue and, if the item had no future, one new pending
    future. *)
Lemma get_markdown_tail_found (d : DocItem) (p : CachedParser) (σ : Store) :
  d ∈ symbol <$> _queue p →
  ∃ c p' σ' f,
    get_markdown_tail d (p, σ) = (c, (p', σ')) ∧
    _queue p' ≡ₚ _queue p ∧ symbol <$> last (_queue p') = Some d ∧
    _page_symbols p' = _page_symbols p ∧ _parse_task p' = _parse_task p ∧
    lists σ' = lists σ ∧ tasks σ' = tasks σ ∧
    _item_futures p' !! d = Some f ∧
    (c = GAtFuture d f ∨ ∃ md, c = GReturned md ∧ futures σ' !! f = Some (Some md)) ∧
    match _item_futures p !! d with
    | Some f0 => f = f0 ∧ _item_futures p' = _item_futures p ∧ futures σ' = futures σ
    | None => f = length (futures σ) ∧ _item_futures p' = <[d := f]> (_item_futures p) ∧
              futures σ' = futures σ ++ [None]
    end.
Proof.
  intros Hin. destruct (_move_to_front_found _ _ Hin) as (q' & Hmove & Hperm & Hlast).
  unfold get_markdown_tail. rewrite Hmove. simpl.
  destruct (_item_futures p !! d) as [f0|] eqn:Hf0.
  - destruct (futures σ !! f0) as [[md|]|] eqn:Hfut;
      eexists _, _, _, f0; (split; [reflexivity |]); simpl;
      repeat split; eauto.
  - cbn [futures]. rewrite list_lookup_middle by done.
    eexists _, _, _, (length (futures σ)); (split; [reflexivity |]); simpl.
    rewrite lookup_insert_eq. repeat split; eauto.
Qed.

Lemma insert_last {A} (l : list A) (x y : A) : <[length l := x]> (l ++ [y]) = l ++ [x].
Proof. rewrite insert_app_r_alt by done. by rewrite Nat.sub_diag. Qed.

(** Lines 103-108 on a page that is pending: the state they leave. *)
Lemma get_markdown_queue_page_result (d : DocItem) (l : nat) (syms : list DocItem)
    (soup : Soup) (p : CachedParser) (σ : Store) :
  _page_symbols p !! url d = Some l →
  lists σ !! l = Some syms →
  get_markdown_queue_page d l soup (p, σ) =
    Normal ()
      (mkCachedParser (_queue p ++ ((λ s, mkQueueItem s soup) <$> syms))
                      (delete (url d) (_page_symbols p)) (_item_futures p)
                      (Some (default (length (tasks σ)) (_parse_task p))),
       mkStore (lists σ) (futures σ)
               (tasks σ ++ match _parse_task p with
                           | Some _ => []
                           | None => [mkTask WCreated false]
                           end)).
Proof.
  intros Hl Hsyms. unfold get_markdown_queue_page. simpl. rewrite Hl, Hsyms. simpl.
  destruct (_parse_task p) as [t|]; simpl; [| done].
  rewrite app_nil_r. by destruct σ.
Qed.

(** A request on a pending page, from the call to the arrival of the page. *)
Lemma get_markdown_first_request (get_symbol_markdown : Soup → DocItem → option Markdown)
    (d : DocItem) (syms : list DocItem) (soup : Soup) (r : Runtime) :
  page_symbols_of (parser r) (store r) (url d) = Some syms →
  d ∈ syms →
  ∃ r' f,
    run get_symbol_markdown [ECall d; EPage (length (calls r)) (Some soup)] r = Some r' ∧
    page_requests r' = page_requests r ++ [url d] ∧
    extractions r' = extractions r ∧
    _page_symbols (parser r') = delete (url d) (_page_symbols (parser r)) ∧
    _queue (parser r') ≡ₚ _queue (parser r) ++ ((λ s, mkQueueItem s soup) <$> syms) ∧
    symbol <$> last (_queue (parser r')) = Some d ∧
    _parse_task (parser r') =
      Some (default (length (tasks (store r))) (_parse_task (parser r))) ∧
    tasks (store r') =
      tasks (store r) ++ match _parse_task (parser r) with
                         | Some _ => []
                         | None => [mkTask WCreated false]
                         end ∧
    _item_futures (parser r') !! d = Some f ∧
    (calls r' = calls r ++ [GAtFuture d f] ∨
     ∃ md, futures (store r') !! f = Some (Some md) ∧ calls r' = calls r ++ [GReturned md]).
Proof.
  destruct r as [p σ cs prs exs]. cbn [parser store calls page_requests extractions].
  unfold page_symbols_of. intros Hpage Hin.
  destruct (_page_symbols p !! url d) as [l|] eqn:Hl; [| done]. simpl in Hpage.
  cbn [run step]. unfold get_markdown_call. cbn [parser]. rewrite Hl.
  cbn [mbind option_bind]. unfold get_markdown_page.
  cbn [calls parser store page_requests extractions].
  rewrite list_lookup_middle by done.
  rewrite (get_markdown_queue_page_result d l syms soup p σ Hl Hpage).
  match goal with
  | |- context [get_markdown_tail d (?p1, ?σ1)] =>
      assert (Hd : d ∈ symbol <$> _queue p1);
        [| destruct (get_markdown_tail_found d p1 σ1 Hd)
             as (c & p' & σ' & f & Htail & Hperm & Hlast & Hps & Hpt & Hls & Hts & Hf & Hc & _)]
  end.
  { cbn [_queue]. rewrite fmap_app, <- list_fmap_compose. apply elem_of_app. right.
    apply list_elem_of_fmap. by exists d. }
  rewrite Htail, insert_last.
  exists (mkRuntime p' σ' (cs ++ [c]) (prs ++ [url d]) exs), f.
  cbn [parser store calls page_requests extractions _queue _page_symbols _parse_task tasks]
    in *.
  split; [done |]. rewrite Hps, Hpt, Hts.
  repeat split; try done.
  destruct Hc as [-> | (md & -> & Hmd)]; eauto.
Qed.


(** X15. A request for a symbol that is queued and whose page is no
    longer pending sends no page request: it moves the symbol to the end of
    the queue and awaits the future of the symbol. If the symbol has a
    future, that one is used and no future is made (or its result is
    returned at once); if it has none, one pending future is made. *)
Theorem request_for_queued_symbol (d : DocItem) (r : Runtime) :
  _page_symbols (parser r) !! url d = None →
  d ∈ symbol <$> _queue (parser r) →
  ∃ f,
    page_requests (get_markdown_call d r) = page_requests r ∧
    extractions (get_markdown_call d r) = extractions r ∧
    tasks (store (get_markdown_call d r)) = tasks (store r) ∧
    _parse_task (parser (get_markdown_call d r)) = _parse_task (parser r) ∧
    _queue (parser (get_markdown_call d r)) ≡ₚ _queue (parser r) ∧
    symbol <$> last (_queue (parser (get_markdown_call d r))) = Some d ∧
    _item_futures (parser (get_markdown_call d r)) !! d = Some f ∧
    (calls (get_markdown_call d r) = calls r ++ [GAtFuture d f] ∨
     ∃ md, futures (store r) !! f = Some (Some md) ∧
           calls (get_markdown_call d r) = calls r ++ [GReturned md]) ∧
    match _item_futures (parser r) !! d with
    | Some f0 => f = f0 ∧ store (get_markdown_call d r) = store r ∧
                 _item_futures (parser (get_markdown_call d r)) = _item_futures (parser r)
    | None => f = length (futures (store r)) ∧
              futures (store (get_markdown_call d r)) = futures (store r) ++ [None] ∧
              _item_futures (parser (get_markdown_call d r))
                = <[d := f]> (_item_futures (parser r))
    end.
Proof.
  intros Hpage Hin. unfold get_markdown_call. rewrite Hpage.
  destruct (get_markdown_tail_found d (parser r) (store r) Hin)
    as (c & p' & σ' & f & Htail & Hperm & Hlast & _ & Hpt & Hls & Hts & Hf & Hc & Hfut).
  rewrite Htail. exists f. simpl.
  split; [done |]. split; [done |]. split; [done |]. split; [done |].
  split; [done |]. split; [done |]. split; [done |].
  destruct (_item_futures (parser r) !! d) as [f0|] eqn:Hf0.
  - destruct Hfut as (-> & Hif & Hfs).
    assert (σ' = store r) as -> by (destruct σ', (store r); simpl in *; congruence).
    split; [| done]. destruct Hc as [-> | (md & -> & Hmd)]; eauto.
  - destruct Hfut as (-> & Hif & Hfs). split; [| done].
    destruct Hc as [-> | (md & -> & Hmd)]; [by left |].
    rewrite Hfs, list_lookup_middle in Hmd by done. done.
Qed.

Lemma request_for_queued_symbol_witness :
  ∃ f, page_requests (get_markdown_call sym_B queued_BA) = page_requests queued_BA ∧
       symbol <$> last (_queue (parser (get_markdown_call sym_B queued_BA))) = Some sym_B ∧
       _item_futures (parser (get_markdown_call sym_B queued_BA)) !! sym_B = Some f.
Proof.
  destruct (request_for_queued_symbol sym_B queued_BA)
    as (f & Hreq & _ & _ & _ & _ & Hlast & Hf & _).
  - apply lookup_empty.
  - unfold queued_BA. cbn [parser _queue]. apply list_elem_of_fmap.
    exists (mkQueueItem sym_B "page"). split; [reflexivity | repeat constructor].
  - exists f. split; [exact Hreq |]. split; [exact Hlast | exact Hf].
Defined.

Section WorkerSegments.

Variable get_symbol_markdown : Soup → DocItem → option Markdown.

(** The worker at the head of its loop takes the last item of the queue and
    hands it to the extractor. *)
Lemma _parse_queue_step_pop (t : nat) (pc0 : worker_pc) (q : list QueueItem)
    (qi : QueueItem) (cache_ok : bool) (r : Runtime) :
  tasks (store r) !! t = Some (mkTask pc0 false) →
  pc0 = WCreated ∨ pc0 = WAtSleep →
  _queue (parser r) = q ++ [qi] →
  _parse_queue_step get_symbol_markdown t cache_ok r =
    Some (mkRuntime (set_queue q (parser r))
            (set_task t (mkTask (match get_symbol_markdown (soup qi) (symbol qi) with
                                 | Some md => WAtCacheSet (symbol qi) md
                                 | None => WAtSleep
                                 end) false) (store r))
            (calls r) (page_requests r) (extractions r ++ [symbol qi])).
Proof.
  intros Ht Hpc Hq. unfold _parse_queue_step. rewrite Ht.
  assert (Hloop : _parse_queue_loop get_symbol_markdown t r =
    mkRuntime (set_queue q (parser r))
      (set_task t (mkTask (match get_symbol_markdown (soup qi) (symbol qi) with
                           | Some md => WAtCacheSet (symbol qi) md
                           | None => WAtSleep
                           end) false) (store r))
      (calls r) (page_requests r) (extractions r ++ [symbol qi])).
  { unfold _parse_queue_loop. by rewrite Hq, pop_snoc. }
  destruct Hpc as [-> | ->]; by rewrite Hloop.
Qed.

(** X16. When the worker is at the head of its loop, the item at the end
    of the queue is extracted with success, [doc_cache.set] returns and the
    future of the item is pending, two segments of the worker resolve that
    future with the extractor's markdown, and a call awaiting it returns that
    markdown. The item has left the queue; the worker sleeps before its next
    item. *)
Theorem worker_resolves_request (t i f : nat) (pc0 : worker_pc) (q : list QueueItem)
    (qi : QueueItem) (md : Markdown) (d : DocItem) (r : Runtime) :
  tasks (store r) !! t = Some (mkTask pc0 false) →
  pc0 = WCreated ∨ pc0 = WAtSleep →
  _queue (parser r) = q ++ [qi] →
  get_symbol_markdown (soup qi) (symbol qi) = Some md →
  _item_futures (parser r) !! symbol qi = Some f →
  futures (store r) !! f = Some None →
  calls r !! i = Some (GAtFuture d f) →
  ∃ r', run get_symbol_markdown [EWorker t true; EWorker t true; EWake i] r = Some r' ∧
        calls r' = <[i := GReturned md]> (calls r) ∧
        futures (store r') = <[f := Some md]> (futures (store r)) ∧
        extractions r' = extractions r ++ [symbol qi] ∧
        _queue (parser r') = q ∧
        tasks (store r') = <[t := mkTask WAtSleep false]> (tasks (store r)) ∧
        _parse_task (parser r') = _parse_task (parser r) ∧
        page_requests r' = page_requests r.
Proof.
  intros Ht Hpc Hq Hmd Hf Hfut Hcall.
  pose proof (lookup_lt_Some _ _ _ Ht) as Hlt.
  pose proof (lookup_lt_Some _ _ _ Hfut) as Hflt.
  cbn [run step]. rewrite (_parse_queue_step_pop t pc0 q qi true r Ht Hpc Hq), Hmd.
  cbn [mbind option_bind]. unfold _parse_queue_step at 1.
  cbn [store set_task tasks]. rewrite list_lookup_insert_eq by done.
  unfold _parse_queue_set_result.
  cbn [parser store set_queue set_task _item_futures futures tasks lists
       calls page_requests extractions].
  rewrite Hf, Hfut. cbn [mbind option_bind]. unfold get_markdown_wake.
  cbn [calls store futures]. rewrite Hcall, list_lookup_insert_eq by done.
  eexists. split; [reflexivity |].
  cbn [calls store futures tasks parser _queue _parse_task extractions page_requests].
  by rewrite list_insert_insert_eq.
Qed.

(** X17. When the extractor raises on the item at the end of the queue,
    or [doc_cache.set] raises after it, the worker drops the item and goes on
    to its sleep: no future changes, so a call awaiting the future of that
    item cannot resume. *)
Theorem worker_failure_leaves_future_pending (t i f : nat) (pc0 : worker_pc)
    (q : list QueueItem) (qi : QueueItem) (d : DocItem) (r : Runtime) :
  tasks (store r) !! t = Some (mkTask pc0 false) →
  pc0 = WCreated ∨ pc0 = WAtSleep →
  _queue (parser r) = q ++ [qi] →
  futures (store r) !! f = Some None →
  calls r !! i = Some (GAtFuture d f) →
  ∃ r', run get_symbol_markdown
            (EWorker t true :: match get_symbol_markdown (soup qi) (symbol qi) with
                               | Some _ => [EWorker t false]
                               | None => []
                               end) r = Some r' ∧
        futures (store r') = futures (store r) ∧
        _queue (parser r') = q ∧
        tasks (store r') = <[t := mkTask WAtSleep false]> (tasks (store r)) ∧
        _parse_task (parser r') = _parse_task (parser r) ∧
        calls r' = calls r ∧
        get_markdown_wake i r' = None.
Proof.
  intros Ht Hpc Hq Hfut Hcall.
  pose proof (lookup_lt_Some _ _ _ Ht) as Hlt.
  cbn [run step]. rewrite (_parse_queue_step_pop t pc0 q qi true r Ht Hpc Hq).
  cbn [mbind option_bind].
  destruct (get_symbol_markdown (soup qi) (symbol qi)) as [md|].
  - cbn [run step]. unfold _parse_queue_step.
    cbn [store set_task tasks]. rewrite list_lookup_insert_eq by done.
    cbn [mbind option_bind]. eexists. split; [reflexivity |].
    cbn [calls store futures tasks parser _queue _parse_task set_queue set_task].
    rewrite list_insert_insert_eq. repeat split; try done.
    unfold get_markdown_wake. simpl. by rewrite Hcall, Hfut.
  - cbn [run]. eexists. split; [reflexivity |].
    cbn [calls store futures tasks parser _queue _parse_task set_queue set_task].
    repeat split; try done.
    unfold get_markdown_wake. simpl. by rewrite Hcall, Hfut.
Qed.

(** X18. [clear()] on a cache whose worker has started and is suspended
    at one of its awaits, followed by the next step of that worker: the
    cancellation is delivered at the await, the [finally] clause resets
    [_parse_task], and the cache is as [__init__] left it, so that the next
    page request starts a new worker. Nothing more is extracted. *)
Theorem clear_then_worker_step (t : nat) (pc0 : worker_pc) (mc cache_ok : bool)
    (r : Runtime) :
  _parse_task (parser r) = Some t →
  tasks (store r) !! t = Some (mkTask pc0 mc) →
  (pc0 = WAtSleep ∨ ∃ item md, pc0 = WAtCacheSet item md) →
  map_Forall (λ _ f, future_done (store r) f = true) (_item_futures (parser r)) →
  ∃ r', run get_symbol_markdown [EClear; EWorker t cache_ok] r = Some r' ∧
        parser r' = CachedParser_init ∧
        tasks (store r') = <[t := mkTask (WDone (Some CancelledError)) false]> (tasks (store r)) ∧
        extractions r' = extractions r ∧
        _parse_queue_step get_symbol_markdown t cache_ok r' = None.
Proof.
  intros Hh Ht Hpc Hdone.
  pose proof (lookup_lt_Some _ _ _ Ht) as Hlt.
  cbn [run step]. unfold clear. cbn [fst snd].
  rewrite bool_decide_eq_true_2 by done.
  unfold clear_sync. rewrite Hh. cbn [mbind option_bind].
  unfold _parse_queue_step at 1. cbn [store cancel tasks].
  rewrite list_lookup_alter_eq, Ht. cbn [fmap option_fmap option_map].
  assert (Hcancel : cancel_task (mkTask pc0 mc) = mkTask pc0 true)
    by (destruct Hpc as [-> | (item & md & ->)]; done).
  rewrite Hcancel.
  assert (Hstep : ∀ X Y : option Runtime,
    match pc0 with
    | WCreated => X
    | WAtCacheSet _ _ | WAtSleep => Y
    | WDone _ => None
    end = Y) by (intros; destruct Hpc as [-> | (item & md & ->)]; done).
  eexists. split; [destruct Hpc as [-> | (item & md & ->)]; reflexivity |].
  cbn [parser store tasks extractions _parse_queue_finally set_parse_task set_task
       cancel _queue _page_symbols _item_futures].
  split; [done |]. split.
  - apply list_eq. intros j. destruct (decide (j = t)) as [-> | Hne].
    + rewrite !list_lookup_insert_eq; [done | done |]. by rewrite length_alter.
    + rewrite !list_lookup_insert_ne by done. by rewrite list_lookup_alter_ne.
  - split; [done |]. unfold _parse_queue_step, _parse_queue_finally.
    cbn [store set_task tasks cancel]. rewrite list_lookup_insert_eq; [done |].
    by rewrite length_alter.
Qed.

End WorkerSegments.

Lemma worker_resolves_request_witness :
  ∃ r', run extract_anchor [EWorker 0 true; EWorker 0 true; EWake 0] requested_A = Some r' ∧
        calls r' = <[0%nat := GReturned "page#A"]> (calls requested_A) ∧
        futures (store r') = <[0%nat := Some "page#A"]> (futures (store requested_A)).
Proof.
  destruct (worker_resolves_request extract_anchor 0 0 0 WCreated []
              (mkQueueItem sym_A "page") "page#A" sym_A requested_A)
    as (r' & Hrun & Hcalls & Hfut & _).
  - vm_compute. reflexivity.
  - left. reflexivity.
  - vm_compute. reflexivity.
  - vm_compute. reflexivity.
  - vm_compute. reflexivity.
  - vm_compute. reflexivity.
  - vm_compute. reflexivity.
  - exists r'. split; [exact Hrun |]. split; [exact Hcalls | exact Hfut].
Defined.

Lemma worker_failure_leaves_future_pending_witness :
  ∃ r', run (λ _ _, None) [EWorker 0 true] requested_A = Some r' ∧
        futures (store r') = futures (store requested_A) ∧
        _queue (parser r') = [] ∧
        get_markdown_wake 0 r' = None.
Proof.
  destruct (worker_failure_leaves_future_pending (λ _ _, None) 0 0 0 WCreated []
              (mkQueueItem sym_A "page") sym_A requested_A)
    as (r' & Hrun & Hfut & Hq & _ & _ & _ & Hwake).
  - vm_compute. reflexivity.
  - left. reflexivity.
  - vm_compute. reflexivity.
  - vm_compute. reflexivity.
  - vm_compute. reflexivity.
  - exists r'. split; [exact Hrun |]. split; [exact Hfut |]. split; [exact Hq | exact Hwake].
Defined.

Lemma clear_then_worker_step_witness :
  ∃ r', run extract_anchor [EClear; EWorker 0 true] resolved_A = Some r' ∧
        parser r' = CachedParser_init ∧
        extractions r' = extractions resolved_A.
Proof.
  destruct (clear_then_worker_step extract_anchor 0 WAtSleep false true resolved_A)
    as (r' & Hrun & Hparser & _ & Hex & _).
  - vm_compute. reflexivity.
  - vm_compute. reflexivity.
  - left. reflexivity.
  - apply (bool_decide_unpack _). vm_compute. exact I.
  - exists r'. split; [exact Hrun |]. split; [exact Hparser | exact Hex].
Defined.

Lemma update_single_locations (pkg base inv_url : string) (fetched : option Inventory)
    (s : CogState) :
  locations_from pkg s (final_state (update_single pkg base inv_url fetched s)).
Proof.
  destruct s as [c σ]. unfold update_single.
  destruct (falsy fetched); [intros name d H; right; by exists name |].
  match goal with
  | |- context [merge_package _ _ _ ?s0] =>
      pose proof (merge_package_lift pkg base (locations_from pkg) (locations_from_refl pkg)
                    (locations_from_trans pkg) (merge_symbol_locations pkg base)
                    (default [] fetched) s0) as Hlift;
      destruct (merge_package pkg base (default [] fetched) s0) as [[] s' | e s']
  end; intros name d H; exact (Hlift name d H).
Qed.

(** X19. Starting from an empty table, as [refresh_inventory] leaves it,
    every location that is in the table after a series of [update_single]
    calls belongs to one of the packages of those calls. *)
Theorem update_singles_locations
    (updates : list (string * string * string * option Inventory)) (s : CogState)
    (name : string) (d : DocItem) :
  doc_symbols s.1 = ∅ →
  doc_symbols (update_singles updates s).1 !! name = Some d →
  package d ∈ (λ u, u.1.1.1) <$> updates.
Proof.
  intros Hempty.
  assert (Hgen : ∀ s0, doc_symbols (update_singles updates s0).1 !! name = Some d →
            package d ∈ (λ u, u.1.1.1) <$> updates ∨
            ∃ name', doc_symbols s0.1 !! name' = Some d).
  { clear. revert name. induction updates as [|[[[pkg base] inv_url] fetched] updates IH];
      intros name s0; simpl; [eauto |].
    intros [Hin | [name' Hname']]%IH.
    - left. by apply elem_of_cons; right.
    - destruct (update_single_locations pkg base inv_url fetched s0 _ _ Hname')
        as [<- | ?]; [| by right].
      left. apply elem_of_cons; by left. }
  intros [? | [name' Hname']]%Hgen; [done |].
  rewrite Hempty in Hname'. by rewrite lookup_empty in Hname'.
Qed.

Lemma update_singles_locations_witness :
  package otherlib_open ∈
    (λ u : string * string * string * option Inventory, u.1.1.1) <$>
      [("otherlib", "https://otherlib.example/", "https://otherlib.example/objects.inv",
        Some otherlib_inventory);
       ("python", "https://docs.python.org/3/", "https://docs.python.org/3/objects.inv",
        Some python_inventory)].
Proof.
  apply (update_singles_locations _ (DocCog_init, Store_init) "otherlib.open" otherlib_open).
  - reflexivity.
  - vm_compute. reflexivity.
Defined.

Section Drain.

Variables (get_symbol_markdown : Soup → DocItem → option Markdown) (t : nat).

Lemma run_app (es1 es2 : list event) (r : Runtime) :
  run get_symbol_markdown (es1 ++ es2) r =
    run get_symbol_markdown es1 r ≫= run get_symbol_markdown es2.
Proof.
  revert r. induction es1 as [|e es1 IH]; intros r; simpl; [done |].
  destruct (step get_symbol_markdown e r) as [r1|]; simpl; [apply IH | done].
Qed.

(** The segments of the worker for the item at the end of the queue. *)
Lemma drain_one (pc0 : worker_pc) (q : list QueueItem) (qi : QueueItem) (r : Runtime) :
  tasks (store r) !! t = Some (mkTask pc0 false) →
  pc0 = WCreated ∨ pc0 = WAtSleep →
  _queue (parser r) = q ++ [qi] →
  (∀ f, _item_futures (parser r) !! symbol qi = Some f → futures (store r) !! f = Some None) →
  ∃ r1, run get_symbol_markdown
            (match get_symbol_markdown (soup qi) (symbol qi) with
             | Some _ => [EWorker t true; EWorker t true]
             | None => [EWorker t true]
             end) r = Some r1 ∧
        parser r1 = set_queue q (parser r) ∧
        tasks (store r1) = <[t := mkTask WAtSleep false]> (tasks (store r)) ∧
        lists (store r1) = lists (store r) ∧
        calls r1 = calls r ∧ page_requests r1 = page_requests r ∧
        extractions r1 = extractions r ++ [symbol qi] ∧
        futures (store r1) =
          match _item_futures (parser r) !! symbol qi with
          | Some f => <[f := get_symbol_markdown (soup qi) (symbol qi)]> (futures (store r))
          | None => futures (store r)
          end.
Proof.
  intros Ht Hpc Hq Hpending.
  pose proof (lookup_lt_Some _ _ _ Ht) as Hlt.
  cbn [run step]. 
  destruct (get_symbol_markdown (soup qi) (symbol qi)) as [md|] eqn:Hmd.
  - cbn [run step]. rewrite (_parse_queue_step_pop _ t pc0 q qi true r Ht Hpc Hq), Hmd.
    cbn [mbind option_bind]. unfold _parse_queue_step.
    cbn [store set_task tasks]. rewrite list_lookup_insert_eq by done.
    unfold _parse_queue_set_result.
    cbn [parser store set_queue set_task _item_futures futures tasks lists
         calls page_requests extractions].
    destruct (_item_futures (parser r) !! symbol qi) as [f|] eqn:Hf.
    + rewrite (Hpending f eq_refl). eexists. split; [reflexivity |]. simpl.
      by rewrite list_insert_insert_eq.
    + eexists. split; [reflexivity |]. simpl. by rewrite list_insert_insert_eq.
  - cbn [run step]. rewrite (_parse_queue_step_pop _ t pc0 q qi true r Ht Hpc Hq), Hmd.
    cbn [mbind option_bind]. eexists. split; [reflexivity |]. simpl.
    repeat split; try done.
    destruct (_item_futures (parser r) !! symbol qi) as [f|] eqn:Hf; [| done].
    symmetry. apply list_insert_id. by apply Hpending.
Qed.

Lemma drain_all (q : list QueueItem) :
  ∀ (pc0 : worker_pc) (r : Runtime),
  tasks (store r) !! t = Some (mkTask pc0 false) →
  pc0 = WCreated ∨ pc0 = WAtSleep →
  _queue (parser r) = q →
  NoDup (symbol <$> q) →
  futures_distinct (parser r) →
  (∀ qi f, qi ∈ q → _item_futures (parser r) !! symbol qi = Some f →
           futures (store r) !! f = Some None) →
  ∃ r', run get_symbol_markdown (drain_events get_symbol_markdown t q) r = Some r' ∧
        parser r' = set_parse_task None (set_queue [] (parser r)) ∧
        tasks (store r') = <[t := mkTask (WDone None) false]> (tasks (store r)) ∧
        lists (store r') = lists (store r) ∧
        calls r' = calls r ∧ page_requests r' = page_requests r ∧
        extractions r' = extractions r ++ reverse (symbol <$> q) ∧
        (∀ f, (∀ qi, qi ∈ q → _item_futures (parser r) !! symbol qi ≠ Some f) →
              futures (store r') !! f = futures (store r) !! f) ∧
        (∀ qi f, qi ∈ q → _item_futures (parser r) !! symbol qi = Some f →
                 futures (store r') !! f = Some (get_symbol_markdown (soup qi) (symbol qi))).
Proof.
  induction q as [|qi q IH] using rev_ind; intros pc0 r Ht Hpc Hq Hnodup Hdist Hpend.
  - change (drain_events get_symbol_markdown t []) with [EWorker t true].
    cbn [run step]. unfold _parse_queue_step. rewrite Ht.
    assert (Hloop : _parse_queue_loop get_symbol_markdown t r =
                      _parse_queue_finally t None r)
      by (unfold _parse_queue_loop; by rewrite Hq).
    exists (_parse_queue_finally t None r).
    split; [destruct Hpc as [-> | ->]; by rewrite Hloop |].
    unfold _parse_queue_finally. simpl.
    rewrite app_nil_r.
    repeat split; try done.
    + destruct (parser r); simpl in *; by subst.
    + intros qi f []%elem_of_nil.
  - unfold drain_events. rewrite reverse_snoc. cbn [mbind list_bind].
    rewrite <- app_assoc, run_app.
    assert (Hpend_qi : ∀ f, _item_futures (parser r) !! symbol qi = Some f →
                            futures (store r) !! f = Some None).
    { intros f. apply Hpend. apply elem_of_app. right. by apply list_elem_of_singleton. }
    destruct (drain_one pc0 q qi r Ht Hpc Hq Hpend_qi)
      as (r1 & -> & Hp1 & Ht1 & Hl1 & Hc1 & Hpr1 & He1 & Hf1).
    cbn [mbind option_bind].
    rewrite fmap_app in Hnodup. apply NoDup_app in Hnodup as (Hnodup & Hfresh & _).
    assert (Hnot : ∀ qj, qj ∈ q → symbol qj ≠ symbol qi).
    { intros qj Hqj Heq. apply (Hfresh (symbol qj)).
      - apply list_elem_of_fmap. eauto.
      - rewrite Heq. simpl. by apply list_elem_of_singleton. }
    assert (Hother : ∀ qj f, qj ∈ q → _item_futures (parser r) !! symbol qj = Some f →
                             futures (store r1) !! f = futures (store r) !! f).
    { intros qj f Hqj Hf. rewrite Hf1.
      destruct (_item_futures (parser r) !! symbol qi) as [fi|] eqn:Hfi; [| done].
      apply list_lookup_insert_ne. intros <-.
      apply (Hnot _ Hqj). by eapply Hdist. }
    destruct (IH WAtSleep r1) as (r' & Hrun & Hp' & Ht' & Hl' & Hc' & Hpr' & He' & Hfa & Hfb).
    + rewrite Ht1. apply list_lookup_insert_eq. by eapply lookup_lt_Some.
    + by right.
    + by rewrite Hp1.
    + done.
    + by rewrite Hp1.
    + intros qj f Hqj. rewrite Hp1. cbn [set_queue _item_futures]. intros Hf.
      rewrite (Hother _ _ Hqj Hf). apply (Hpend qj); [| done].
      apply elem_of_app. by left.
    + fold (drain_events get_symbol_markdown t q). exists r'. split; [exact Hrun |].
      rewrite Hp1 in Hp', Hfa, Hfb. cbn [set_queue _item_futures] in Hfa, Hfb.
      split; [rewrite Hp'; by destruct (parser r) |].
      split; [by rewrite Ht', Ht1, list_insert_insert_eq |].
      split; [congruence |]. split; [congruence |]. split; [congruence |].
      split; [rewrite He', He1, fmap_app, reverse_app, <- app_assoc; done |].
      split.
      * intros f Hf. rewrite Hfa.
        -- rewrite Hf1.
           destruct (_item_futures (parser r) !! symbol qi) as [fi|] eqn:Hfi; [| done].
           apply list_lookup_insert_ne. intros <-.
           apply (Hf qi); [| done]. apply elem_of_app. right. by apply list_elem_of_singleton.
        -- intros qj Hqj. apply Hf. apply elem_of_app. by left.
      * intros qj f [Hqj | ->%list_elem_of_singleton]%elem_of_app Hf.
        -- by apply Hfb.
        -- rewrite Hfa.
           ++ rewrite Hf1, Hf. apply list_lookup_insert_eq.
              eapply lookup_lt_Some. by apply Hpend_qi.
           ++ intros qk Hqk Hfk. apply (Hnot _ Hqk). by eapply Hdist.
Qed.

(** X20. A worker at the head of its loop, when every [doc_cache.set]
    returns, works off the whole queue from its end: it invokes the extractor
    once per item, in that order, resolves the future of every item whose
    extraction succeeded, leaves the future of an item whose extraction
    raised pending and the other futures alone, and ends with the queue empty
    and [_parse_task] reset. This holds when no symbol is queued twice and
    the futures of the queued symbols are pending. *)
Theorem worker_drains_queue (pc0 : worker_pc) (r : Runtime) :
  tasks (store r) !! t = Some (mkTask pc0 false) →
  pc0 = WCreated ∨ pc0 = WAtSleep →
  NoDup (symbol <$> _queue (parser r)) →
  futures_distinct (parser r) →
  (∀ qi f, qi ∈ _queue (parser r) → _item_futures (parser r) !! symbol qi = Some f →
           futures (store r) !! f = Some None) →
  ∃ r', run get_symbol_markdown (drain_events get_symbol_markdown t (_queue (parser r))) r
          = Some r' ∧
        _queue (parser r') = [] ∧
        _parse_task (parser r') = None ∧
        tasks (store r') = <[t := mkTask (WDone None) false]> (tasks (store r)) ∧
        extractions r' = extractions r ++ reverse (symbol <$> _queue (parser r)) ∧
        page_requests r' = page_requests r ∧
        (∀ qi f, qi ∈ _queue (parser r) → _item_futures (parser r) !! symbol qi = Some f →
                 futures (store r') !! f = Some (get_symbol_markdown (soup qi) (symbol qi))) ∧
        (∀ f, (∀ qi, qi ∈ _queue (parser r) → _item_futures (parser r) !! symbol qi ≠ Some f) →
              futures (store r') !! f = futures (store r) !! f).
Proof.
  intros Ht Hpc Hnodup Hdist Hpend.
  destruct (drain_all (_queue (parser r)) pc0 r Ht Hpc eq_refl Hnodup Hdist Hpend)
    as (r' & Hrun & Hp' & Ht' & _ & _ & Hpr' & He' & Hfa & Hfb).
  exists r'. rewrite Hp'. repeat split; try done.
Qed.

End Drain.

(** [queued_BA] is what the events lead to. *)
Lemma queued_BA_reached :
  let after := run extract_anchor
                 [EAddItem sym_A; EAddItem sym_B; ECall sym_A; EPage 0 (Some "page")]
                 Runtime_init in
  (λ r, _queue (parser r)) <$> after = Some (_queue (parser queued_BA)) ∧
  (λ r, map_to_list (_page_symbols (parser r))) <$> after = Some [] ∧
  (λ r, map_to_list (_item_futures (parser r))) <$> after = Some [(sym_A, 0%nat)] ∧
  (λ r, _parse_task (parser r)) <$> after = Some (Some 0%nat) ∧
  store <$> after = Some (store queued_BA) ∧
  calls <$> after = Some (calls queued_BA) ∧
  page_requests <$> after = Some (page_requests queued_BA) ∧
  extractions <$> after = Some [].
Proof.
  split; [evaluate |]. split; [evaluate |]. split; [evaluate |]. split; [evaluate |].
  split; [evaluate |]. split; [evaluate |]. split; evaluate.
Qed.

Lemma worker_drains_queue_witness :
  ∃ r', run extract_anchor (drain_events extract_anchor 0 (_queue (parser queued_BA)))
            queued_BA = Some r' ∧
        _queue (parser r') = [] ∧
        _parse_task (parser r') = None ∧
        extractions r' = [] ++ reverse (symbol <$> _queue (parser queued_BA)) ∧
        futures (store r') !! 0%nat = Some (extract_anchor "page" sym_A).
Proof.
  destruct (worker_drains_queue extract_anchor 0 WCreated queued_BA)
    as (r' & Hrun & Hq & Hh & _ & Hex & _ & Hres & _).
  - reflexivity.
  - left. reflexivity.
  - apply (bool_decide_unpack _). vm_compute. exact I.
  - unfold futures_distinct, queued_BA. cbn [parser _item_futures].
    intros d d' f [<- _]%lookup_singleton_Some [<- _]%lookup_singleton_Some. reflexivity.
  - unfold queued_BA. cbn [parser store _item_futures futures _queue].
    intros qi f _ [_ <-]%lookup_singleton_Some. reflexivity.
  - exists r'. split; [exact Hrun |]. split; [exact Hq |]. split; [exact Hh |].
    split; [exact Hex |].
    apply (Hres (mkQueueItem sym_A "page") 0%nat).
    + unfold queued_BA. cbn [parser _queue]. repeat constructor.
    + apply lookup_singleton_eq.
Defined.

(** X21. As long as every location of the table is waiting under its page,
    which [update_single] maintains, a [get_markdown] call for any symbol of
    the table finds the page pending: it sends one page request and waits for
    it, without raising. If the page then arrives, with nothing else
    happening to the cache in between, the symbol is the next in the queue
    and the call awaits its future. If the request fails instead, the call
    ends with the error of the request and the cache is as it was before the
    call. *)
Theorem table_symbol_can_be_requested
    (get_symbol_markdown : Soup → DocItem → option Markdown) (s : CogState)
    (name : string) (d : DocItem) (soup : Soup) (cs : list call_pc)
    (prs : list string) (exs : list DocItem) :
  all_pending s →
  doc_symbols s.1 !! name = Some d →
  (∃ l, get_markdown_call d (mkRuntime (item_fetcher s.1) s.2 cs prs exs) =
          mkRuntime (item_fetcher s.1) s.2 (cs ++ [GAtPage d l]) (prs ++ [url d]) exs) ∧
  run get_symbol_markdown [ECall d; EPage (length cs) None]
      (mkRuntime (item_fetcher s.1) s.2 cs prs exs)
    = Some (mkRuntime (item_fetcher s.1) s.2 (cs ++ [GRaised ClientError])
                      (prs ++ [url d]) exs) ∧
  ∃ r' f,
    run get_symbol_markdown [ECall d; EPage (length cs) (Some soup)]
        (mkRuntime (item_fetcher s.1) s.2 cs prs exs) = Some r' ∧
    page_requests r' = prs ++ [url d] ∧
    symbol <$> last (_queue (parser r')) = Some d ∧
    _item_futures (parser r') !! d = Some f ∧
    (calls r' = cs ++ [GAtFuture d f] ∨
     ∃ md, futures (store r') !! f = Some (Some md) ∧ calls r' = cs ++ [GReturned md]).
Proof.
  intros [_ Hpend] Hd. destruct (Hpend _ _ Hd) as (syms & Hsyms & Hin).
  assert (Hcall : ∃ l, get_markdown_call d (mkRuntime (item_fetcher s.1) s.2 cs prs exs) =
            mkRuntime (item_fetcher s.1) s.2 (cs ++ [GAtPage d l]) (prs ++ [url d]) exs).
  { unfold page_symbols_of in Hsyms. unfold get_markdown_call. cbn [parser].
    destruct (_page_symbols (item_fetcher s.1) !! url d) as [l|]; [| done]. by exists l. }
  split; [exact Hcall |]. split.
  - destruct Hcall as [l Hcall]. cbn [run step]. rewrite Hcall. cbn [mbind option_bind].
    unfold get_markdown_page. cbn [calls parser store page_requests extractions].
    by rewrite list_lookup_middle, insert_last.
  - destruct (get_markdown_first_request get_symbol_markdown d syms soup
                (mkRuntime (item_fetcher s.1) s.2 cs prs exs) Hsyms Hin)
      as (r' & f & Hrun & Hreq & _ & _ & _ & Hlast & _ & _ & Hf & Hc).
    exists r', f. done.
Qed.

Lemma table_symbol_can_be_requested_witness :
  (∃ l, get_markdown_call python_open
          (mkRuntime (item_fetcher after_python.1) after_python.2 [] [] []) =
          mkRuntime (item_fetcher after_python.1) after_python.2
                    ([] ++ [GAtPage python_open l]) ([] ++ [url python_open]) []) ∧
  run extract_anchor [ECall python_open; EPage 0 None]
      (mkRuntime (item_fetcher after_python.1) after_python.2 [] [] [])
    = Some (mkRuntime (item_fetcher after_python.1) after_python.2
                      ([] ++ [GRaised ClientError]) ([] ++ [url python_open]) []) ∧
  ∃ r' f,
    run extract_anchor [ECall python_open; EPage 0 (Some "page")]
        (mkRuntime (item_fetcher after_python.1) after_python.2 [] [] []) = Some r' ∧
    page_requests r' = [] ++ [url python_open] ∧
    symbol <$> last (_queue (parser r')) = Some python_open ∧
    _item_futures (parser r') !! python_open = Some f ∧
    (calls r' = [] ++ [GAtFuture python_open f] ∨
     ∃ md, futures (store r') !! f = Some (Some md) ∧ calls r' = [] ++ [GReturned md]).
Proof.
  apply (table_symbol_can_be_requested extract_anchor after_python "open" python_open
           "page" [] [] []).
  - apply update_single_keeps_pending. split.
    + intros u l H. vm_compute in H. discriminate.
    + intros name d H. vm_compute in H. discriminate.
  - vm_compute. reflexivity.
Defined.

(** * At most one worker *)

Lemma get_markdown_tail_frame (d : DocItem) (p : CachedParser) (σ : Store) :
  tasks (get_markdown_tail d (p, σ)).2.2 = tasks σ ∧
  _parse_task (get_markdown_tail d (p, σ)).2.1 = _parse_task p.
Proof.
  unfold get_markdown_tail.
  destruct (_move_to_front d (_queue p)) as [[] q | e q]; [| done]. simpl.
  destruct (_item_futures p !! d) as [f|]; simpl.
  - by destruct (futures σ !! f) as [[md|]|].
  - by destruct ((futures σ ++ [None]) !! length (futures σ)) as [[md|]|].
Qed.

Lemma single_worker_set_task (t : nat) (next : worker_pc) (r : Runtime) (p : CachedParser)
    (cs : list call_pc) (prs : list string) (exs : list DocItem) (k0 : Task) :
  single_worker r →
  tasks (store r) !! t = Some k0 → task_live k0 = true →
  _parse_task p = _parse_task (parser r) →
  single_worker (mkRuntime p (set_task t (mkTask next false) (store r)) cs prs exs).
Proof.
  intros Hinv Ht Hlive Hp t' k. simpl. rewrite Hp.
  destruct (decide (t = t')) as [<- | Hne].
  - intros _ _. by eapply Hinv.
  - rewrite list_lookup_insert_ne by done. apply Hinv.
Qed.

Lemma single_worker_ended (t : nat) (err : option exn) (h : option nat) (r : Runtime)
    (k0 : Task) (cs : list call_pc) (prs : list string) (exs : list DocItem) :
  single_worker r →
  tasks (store r) !! t = Some k0 → task_live k0 = true →
  h = None ∨ h = _parse_task (parser r) →
  single_worker (mkRuntime (set_parse_task h (parser r))
                   (set_task t (mkTask (WDone err) false) (store r)) cs prs exs).
Proof.
  intros Hinv Ht Hlive Hh t' k. simpl.
  pose proof (Hinv _ _ Ht Hlive) as Hcur.
  destruct (decide (t = t')) as [<- | Hne].
  - rewrite list_lookup_insert_eq by (by eapply lookup_lt_Some). by intros [= <-].
  - rewrite list_lookup_insert_ne by done. intros Hk Hl.
    pose proof (Hinv _ _ Hk Hl) as Hcur'. congruence.
Qed.

(** Lines 103-108 raise [KeyError], or leave the worker there is, or make
    one when there is none. *)
Lemma get_markdown_queue_page_frame (d : DocItem) (l : nat) (soup : Soup)
    (p : CachedParser) (σ : Store) :
  (∃ p', get_markdown_queue_page d l soup (p, σ) = Raised KeyError (p', σ) ∧
         _parse_task p' = _parse_task p) ∨
  (∃ p', get_markdown_queue_page d l soup (p, σ) = Normal () (p', σ) ∧
         _parse_task p' = _parse_task p ∧ is_Some (_parse_task p)) ∨
  (∃ p', get_markdown_queue_page d l soup (p, σ) =
           Normal () (p', mkStore (lists σ) (futures σ)
                                  (tasks σ ++ [mkTask WCreated false])) ∧
         _parse_task p = None ∧ _parse_task p' = Some (length (tasks σ))).
Proof.
  unfold get_markdown_queue_page. simpl.
  destruct (_page_symbols p !! url d); [| left; eauto].
  destruct (_parse_task p) as [t|] eqn:Ht; right; [left | right];
    eexists; (split; [reflexivity |]); simpl; eauto.
Qed.

Lemma single_worker_frame (r r' : Runtime) :
  tasks (store r') = tasks (store r) →
  _parse_task (parser r') = _parse_task (parser r) →
  single_worker r → single_worker r'.
Proof. intros Ht Hp Hinv t k. rewrite Ht, Hp. apply Hinv. Qed.

Lemma single_worker_step (get_symbol_markdown : Soup → DocItem → option Markdown)
    (e : event) (r r' : Runtime) :
  single_worker r → step get_symbol_markdown e r = Some r' → single_worker r'.
Proof.
  intros Hinv. destruct e as [d | d | i response | i | t cache_ok |]; cbn [step].
  - (* add_item *)
    destruct (add_item d (parser r, store r)) as [p σ] eqn:Ha. intros [= <-].
    apply (single_worker_frame r); [| | done]; cbn [store parser];
      unfold add_item in Ha; destruct (_page_symbols (parser r) !! url d);
      by injection Ha as <- <-.
  - (* a new call *)
    intros [= <-]. unfold get_markdown_call.
    destruct (_page_symbols (parser r) !! url d);
      [by apply (single_worker_frame r) |].
    pose proof (get_markdown_tail_frame d (parser r) (store r)) as [Ht Hp].
    destruct (get_markdown_tail d (parser r, store r)) as [c [p σ]].
    cbn [fst snd] in Ht, Hp. by apply (single_worker_frame r).
  - (* a page arrives *)
    unfold get_markdown_page.
    destruct (calls r !! i) as [[d l | | |]|]; try done.
    destruct response as [soup|];
      [| intros [= <-]; by apply (single_worker_frame r)].
    destruct (get_markdown_queue_page_frame d l soup (parser r) (store r))
      as [(p1 & -> & Hp1) | [(p1 & -> & Hp1 & Hsome) | (p1 & -> & Hnone & Hp1)]].
    + intros [= <-]. by apply (single_worker_frame r).
    + pose proof (get_markdown_tail_frame d p1 (store r)) as [Ht Hp].
      destruct (get_markdown_tail d (p1, store r)) as [c [p' σ']]. intros [= <-].
      cbn [fst snd] in Ht, Hp.
      apply (single_worker_frame r); [done | | done]. cbn [parser]. by rewrite Hp.
    + match goal with
      | |- context [get_markdown_tail d (p1, ?σ1)] =>
          pose proof (get_markdown_tail_frame d p1 σ1) as [Ht Hp];
          destruct (get_markdown_tail d (p1, σ1)) as [c [p' σ']]
      end.
      intros [= <-]. cbn [fst snd tasks] in Ht, Hp.
      intros t k. cbn [store parser]. rewrite Ht, Hp, Hp1.
      intros Hk Hlive.
      destruct (decide (t < length (tasks (store r)))) as [Hlt | Hge].
      * rewrite lookup_app_l in Hk by done.
        pose proof (Hinv _ _ Hk Hlive). congruence.
      * apply lookup_lt_Some in Hk as Hlt'. rewrite length_app in Hlt'. simpl in Hlt'.
        f_equal. lia.
  - (* a call resumes *)
    unfold get_markdown_wake.
    destruct (calls r !! i) as [[| d f | |]|]; try done.
    destruct (futures (store r) !! f) as [[md|]|]; try done.
    intros [= <-]. by apply (single_worker_frame r).
  - (* a segment of the worker *)
    unfold _parse_queue_step.
    destruct (tasks (store r) !! t) as [[pc0 mc]|] eqn:Ht; [| done].
    assert (Hloop : task_live (mkTask pc0 mc) = true →
                    single_worker (_parse_queue_loop get_symbol_markdown t r)).
    { intros Hlive. unfold _parse_queue_loop.
      destruct (pop (_queue (parser r))) as [[qi q]|].
      - by eapply single_worker_set_task.
      - eapply single_worker_ended; eauto. }
    destruct pc0 as [| item md | | err]; destruct mc; try done.
    + intros [= <-].
      pose proof (single_worker_ended t (Some CancelledError) (_parse_task (parser r)) r
               _ (calls r) (page_requests r) (extractions r) Hinv Ht eq_refl
               (or_intror eq_refl)) as Hr.
      intros t' k Hk Hl. by apply (Hr t' k).
    + intros [= <-]. by apply Hloop.
    + intros [= <-]. eapply single_worker_ended; eauto.
    + destruct cache_ok; intros [= <-].
      * unfold _parse_queue_set_result.
        destruct (_item_futures (parser r) !! item) as [f|].
        -- destruct (futures (store r) !! f) as [[x|]|].
           ++ eapply single_worker_ended; eauto.
           ++ pose proof (single_worker_set_task t WAtSleep r (parser r) (calls r)
                            (page_requests r) (extractions r) _ Hinv Ht eq_refl eq_refl)
                as Hr.
              intros t' k Hk Hl. by apply (Hr t' k).
           ++ eapply single_worker_ended; eauto.
        -- by eapply single_worker_set_task.
      * by eapply single_worker_set_task.
    + intros [= <-]. eapply single_worker_ended; eauto.
    + intros [= <-]. by apply Hloop.
  - (* clear *)
    destruct (clear (parser r, store r)) as [[p σ]|] eqn:Hc; [| done].
    cbn [mbind option_bind]. intros [= <-].
    unfold clear in Hc. case_bool_decide; [| done].
    unfold clear_sync in Hc. cbn [fst snd] in Hc. injection Hc as <- <-.
    intros t k. cbn [store parser _parse_task].
    destruct (_parse_task (parser r)) as [t0|] eqn:Hh; [| rewrite <- Hh; apply Hinv].
    cbn [cancel tasks]. intros Hk Hlive.
    destruct (decide (t0 = t)) as [<- | Hne]; [done |].
    rewrite list_lookup_alter_ne in Hk by done. rewrite <- Hh. by eapply Hinv.
Qed.

(** X22. Whatever happens to a fresh cache, at most one worker task has
    not ended, and it is the task [_parse_task] refers to: a second worker is
    never started while one is alive. *)
Theorem single_worker_always (get_symbol_markdown : Soup → DocItem → option Markdown)
    (es : list event) :
  match run get_symbol_markdown es Runtime_init with
  | Some r => single_worker r ∧
              ∀ t t' k k', tasks (store r) !! t = Some k → task_live k = true →
                           tasks (store r) !! t' = Some k' → task_live k' = true → t = t'
  | None => True
  end.
Proof.
  assert (Hrun : ∀ es r r', single_worker r →
            run get_symbol_markdown es r = Some r' → single_worker r').
  { clear es. induction es as [|e es IH]; intros r r' Hinv; simpl; [by intros [= <-] |].
    destruct (step get_symbol_markdown e r) as [r1|] eqn:Hstep; [| done]. simpl.
    apply IH. by eapply single_worker_step. }
  destruct (run get_symbol_markdown es Runtime_init) as [r|] eqn:Hes; [| done].
  assert (Hinv : single_worker r).
  { eapply Hrun; [| exact Hes]. intros t k H. by destruct t. }
  split; [exact Hinv |].
  intros t t' k k' Hk Hl Hk' Hl'.
  pose proof (Hinv _ _ Hk Hl). pose proof (Hinv _ _ Hk' Hl'). congruence.
Qed.
